(** * Verification of the stencil image processor

    Shallow embedding of [ImageProcessor] (components/image-processor.ts):
    the three pixel transforms, the Sobel stage, the dilation stage and the
    mode dispatcher, over an explicit model of the canvas they share.

    JavaScript numbers are IEEE-754 binary64 values; they are modelled with
    [spec_float] at precision 53 and maximal exponent 1024, so every
    arithmetic step rounds as it does in the source.  A [Uint8ClampedArray]
    cell is an integer, and storing a number into one goes through
    [toUint8Clamp]. *)

From Stdlib Require Import ZArith Zpower Lia Bool Ascii String.
From Stdlib Require Import Floats.SpecFloat.
From stdpp Require Import base list.

Local Open Scope Z_scope.

(** ** JavaScript numbers *)

Module JS.

Definition prec : Z := 53.
Definition emax : Z := 1024.

Definition num : Type := spec_float.

Definition add : num -> num -> num := SFadd prec emax.
Definition sub : num -> num -> num := SFsub prec emax.
Definition mul : num -> num -> num := SFmul prec emax.
Definition div : num -> num -> num := SFdiv prec emax.
Definition sqrt : num -> num := SFsqrt prec emax.

(** An integer literal, or an integer read from a typed array. *)
Definition of_int (z : Z) : num := binary_normalize prec emax z 0 false.

(** [x > y]; a comparison with NaN is false. *)
Definition gt (x y : num) : bool := SFltb y x.

Definition nan : num := S754_nan.

(** [Math.min] and [Math.max]: NaN if either argument is NaN, and
    [-0] is below [+0]. *)
Definition Math_min (x y : num) : num :=
  match SFcompare x y with
  | None => S754_nan
  | Some Lt => x
  | Some Gt => y
  | Some Eq =>
      match x, y with
      | S754_zero sx, S754_zero sy => S754_zero (sx || sy)
      | _, _ => x
      end
  end.

Definition Math_max (x y : num) : num :=
  match SFcompare x y with
  | None => S754_nan
  | Some Lt => y
  | Some Gt => x
  | Some Eq =>
      match x, y with
      | S754_zero sx, S754_zero sy => S754_zero (sx && sy)
      | _, _ => x
      end
  end.

(** Round a non-negative dyadic [m * 2^e] to the nearest integer, ties to
    the even one. *)
Definition round_half_even (m : positive) (e : Z) : Z :=
  match e with
  | Zneg k =>
      let d := Z.pow_pos 2 k in
      let q := Z.pos m / d in
      let r := Z.pos m mod d in
      match Z.compare (2 * r) d with
      | Lt => q
      | Gt => q + 1
      | Eq => if Z.even q then q else q + 1
      end
  | _ => Z.pos m * 2 ^ e
  end.

(** The conversion applied by every store into a [Uint8ClampedArray]
    (ECMAScript ToUint8Clamp): NaN becomes 0, the value is clamped to
    [0, 255] and rounded to the nearest integer, ties to even. *)
Definition toUint8Clamp (x : num) : Z :=
  match x with
  | S754_nan => 0
  | S754_zero _ => 0
  | S754_infinity s => if s then 0 else 255
  | S754_finite s m e =>
      if s then 0 else Z.max 0 (Z.min 255 (round_half_even m e))
  end.

(** The literals of the source.  Division of two exactly representable
    integers is correctly rounded, so [299 / 1000] is the binary64 value
    the literal [0.299] denotes, and likewise for the others. *)
Definition lit_0_299 : num := Eval vm_compute in div (of_int 299) (of_int 1000).
Definition lit_0_587 : num := Eval vm_compute in div (of_int 587) (of_int 1000).
Definition lit_0_114 : num := Eval vm_compute in div (of_int 114) (of_int 1000).
Definition lit_0_5 : num := Eval vm_compute in div (of_int 1) (of_int 2).
Definition lit_255 : num := Eval vm_compute in of_int 255.
Definition lit_0 : num := Eval vm_compute in of_int 0.

End JS.

Arguments JS.add : simpl never.
Arguments JS.sub : simpl never.
Arguments JS.mul : simpl never.
Arguments JS.div : simpl never.
Arguments JS.sqrt : simpl never.
Arguments JS.of_int : simpl never.
Arguments JS.gt : simpl never.
Arguments JS.Math_min : simpl never.
Arguments JS.Math_max : simpl never.
Arguments JS.toUint8Clamp : simpl never.


(** ** Rasters

    An [ImageData] buffer is a [Uint8ClampedArray] of [4 * width * height]
    cells; cells [4k .. 4k+3] are the R, G, B, A channels of pixel [k], in
    row-major order.  The model groups the four cells of a pixel, so pixel
    [k] of the model is [data[4k], data[4k+1], data[4k+2], data[4k+3]] of
    the source, and the byte offset [(y * width + x) * 4] is pixel
    [y * width + x]. *)

Record pixel : Type := Pixel { px_r : Z; px_g : Z; px_b : Z; px_a : Z }.

Record Raster : Type := MkRaster {
  width : Z;
  height : Z;
  pixels : list pixel
}.

(** A freshly allocated typed array, and a cleared canvas, hold zeros. *)
Definition zero_pixel : pixel := Pixel 0 0 0 0.

(** Array access at a JavaScript index: a negative or too large index
    reads [undefined] and writes nothing. *)
Definition zget (d : list pixel) (i : Z) : option pixel :=
  if i <? 0 then None else d !! Z.to_nat i.

Definition zalter (f : pixel -> pixel) (i : Z) (d : list pixel) : list pixel :=
  if i <? 0 then d else alter f (Z.to_nat i) d.

(** A channel read used as a number; [undefined] converts to NaN. *)
Definition chan (c : pixel -> Z) (o : option pixel) : JS.num :=
  match o with
  | Some p => JS.of_int (c p)
  | None => JS.nan
  end.

(** [for (let i = lo; i < hi; i++) body], threading the mutated state. *)
Definition zrange (lo hi : Z) : list Z :=
  (fun k : nat => lo + Z.of_nat k) <$> seq 0 (Z.to_nat (hi - lo)).

Definition for_range {S : Type} (lo hi : Z) (body : Z -> S -> S) (s : S) : S :=
  foldl (fun acc i => body i acc) s (zrange lo hi).

(** [for (let i = 0; i < data.length; i += 4)]: the loop variable is the
    pixel number [i / 4]. *)
Definition for_pixels {S : Type} (data : list pixel) (body : Z -> S -> S) (s : S) : S :=
  for_range 0 (Z.of_nat (length data)) body s.

(** ** Settings and results

    [threshold] and [contrast] are numbers and are compared and multiplied
    as such.  [lineThickness] bounds loop counters and offsets of array
    indices; the settings form gives it the integers 1 to 5, and it is an
    integer here.  [mode] is a string at run time, whatever the declared
    union type says. *)

Record StencilSettings : Type := MkSettings {
  threshold : JS.num;
  contrast : JS.num;
  lineThickness : Z;
  invert : bool;
  mode : string
}.

(** A data URL is modelled by the raster it encodes. *)
Record ProcessingResult : Type := MkResult {
  solidStencil : option Raster;
  blackWhite : option Raster;
  lineSketch : option Raster
}.

Definition empty_result : ProcessingResult := MkResult None None None.

(** How the promise returned by [processImage] settles. *)
Inductive outcome : Type :=
  | Resolved (r : ProcessingResult)
  | Rejected (msg : string).

(** ** The pixel stages *)

(** [data[i] * 0.299 + data[i + 1] * 0.587 + data[i + 2] * 0.114] *)
Definition luminance (o : option pixel) : JS.num :=
  JS.add (JS.add (JS.mul (chan px_r o) JS.lit_0_299)
                 (JS.mul (chan px_g o) JS.lit_0_587))
         (JS.mul (chan px_b o) JS.lit_0_114).

(** [((gray / 255 - 0.5) * settings.contrast + 0.5) * 255] *)
Definition contrasted (gray c : JS.num) : JS.num :=
  JS.mul (JS.add (JS.mul (JS.sub (JS.div gray JS.lit_255) JS.lit_0_5) c)
                 JS.lit_0_5)
         JS.lit_255.

(** [settings.invert ? 255 - v : v] *)
Definition inverted (inv : bool) (v : JS.num) : JS.num :=
  if inv then JS.sub JS.lit_255 v else v.

(** The three stores [data[i] = data[i+1] = data[i+2] = v]; alpha stays. *)
Definition set_rgb (v : JS.num) (p : pixel) : pixel :=
  let b := JS.toUint8Clamp v in Pixel b b b (px_a p).

(** Body of the loop of [applyStencilEffect]. *)
Definition stencil_value (settings : StencilSettings) (o : option pixel) : JS.num :=
  let gray := luminance o in
  let c := contrasted gray (contrast settings) in
  let stencilValue := if JS.gt c (threshold settings) then JS.lit_255 else JS.lit_0 in
  inverted (invert settings) stencilValue.

Definition applyStencilEffect (data : list pixel) (settings : StencilSettings) : list pixel :=
  for_pixels data
    (fun k d => zalter (set_rgb (stencil_value settings (zget d k))) k d)
    data.

(** Body of the loop of [createBlackWhiteDesign]. *)
Definition finalGray (settings : StencilSettings) (o : option pixel) : JS.num :=
  let gray := luminance o in
  let c := contrasted gray (contrast settings) in
  JS.Math_max JS.lit_0 (JS.Math_min JS.lit_255 c).

Definition blackWhite_value (settings : StencilSettings) (o : option pixel) : JS.num :=
  inverted (invert settings) (finalGray settings o).

Definition blackWhite_loop (data : list pixel) (settings : StencilSettings) : list pixel :=
  for_pixels data
    (fun k d => zalter (set_rgb (blackWhite_value settings (zget d k))) k d)
    data.

(** The grayscale loop of [createLineSketch], writing a fresh array. *)
Definition gray_pixel (o : option pixel) : pixel :=
  let g := JS.toUint8Clamp (luminance o) in
  Pixel g g g (JS.toUint8Clamp (chan px_a o)).

Definition grayscale_loop (data : list pixel) : list pixel :=
  for_pixels data
    (fun k g => zalter (fun _ => gray_pixel (zget data k)) k g)
    (replicate (length data) zero_pixel).

(** The Sobel kernels and [kernel[ky + 1][kx + 1]]. *)
Definition sobelX : list (list Z) := [[-1; 0; 1]; [-2; 0; 2]; [-1; 0; 1]].
Definition sobelY : list (list Z) := [[-1; -2; -1]; [0; 0; 0]; [1; 2; 1]].

Definition kernel_at (k : list (list Z)) (ky kx : Z) : JS.num :=
  match k !! Z.to_nat (ky + 1) with
  | Some row =>
      match row !! Z.to_nat (kx + 1) with
      | Some c => JS.of_int c
      | None => JS.nan
      end
  | None => JS.nan
  end.

(** The two inner loops of [applySobelEdgeDetection], accumulating
    [(gx, gy)] over the 3x3 neighbourhood of [(x, y)]. *)
Definition sobel_sums (data : list pixel) (w x y : Z) : JS.num * JS.num :=
  for_range (-1) 2 (fun ky =>
    for_range (-1) 2 (fun kx '(gx, gy) =>
      let pixelValue := chan px_r (zget data ((y + ky) * w + (x + kx))) in
      (JS.add gx (JS.mul pixelValue (kernel_at sobelX ky kx)),
       JS.add gy (JS.mul pixelValue (kernel_at sobelY ky kx)))))
    (JS.lit_0, JS.lit_0).

(** [Math.min(255, Math.sqrt(gx * gx + gy * gy))] *)
Definition magnitude (g : JS.num * JS.num) : JS.num :=
  let '(gx, gy) := g in
  JS.Math_min JS.lit_255 (JS.sqrt (JS.add (JS.mul gx gx) (JS.mul gy gy))).

Definition sobel_pixel (data : list pixel) (w x y : Z) : pixel :=
  let m := JS.toUint8Clamp (magnitude (sobel_sums data w x y)) in
  Pixel m m m (JS.toUint8Clamp (chan px_a (zget data (y * w + x)))).

Definition applySobelEdgeDetection (data : list pixel) (w h : Z) : list pixel :=
  for_range 1 (h - 1) (fun y =>
    for_range 1 (w - 1) (fun x result =>
      zalter (fun _ => sobel_pixel data w x y) (y * w + x) result))
    (replicate (length data) zero_pixel).

(** The threshold loop of [createLineSketch]. *)
Definition line_value (settings : StencilSettings) (o : option pixel) : JS.num :=
  let edgeStrength := chan px_r o in
  let lineValue :=
    if JS.gt edgeStrength (threshold settings) then JS.lit_0 else JS.lit_255 in
  inverted (invert settings) lineValue.

Definition threshold_loop (edgeData : list pixel) (settings : StencilSettings) : list pixel :=
  for_pixels edgeData
    (fun k d => zalter (set_rgb (line_value settings (zget d k))) k d)
    edgeData.

(** The dilation loops of [applyLineThickness]: [originalData] is the
    snapshot that is read, [data] the live buffer that is painted. *)
Definition paint_black (p : pixel) : pixel := Pixel 0 0 0 (px_a p).

Definition is_line (o : option pixel) : bool :=
  match o with
  | Some p => px_r p =? 0
  | None => false
  end.

Definition dilate_around (t w h x y : Z) (data : list pixel) : list pixel :=
  for_range (- t + 1) t (fun dy =>
    for_range (- t + 1) t (fun dx d =>
      let nx := x + dx in
      let ny := y + dy in
      if (0 <=? nx) && (nx <? w) && (0 <=? ny) && (ny <? h)
      then zalter paint_black (ny * w + nx) d
      else d))
    data.

Definition dilate (t w h : Z) (originalData : list pixel) : list pixel :=
  for_range 0 h (fun y =>
    for_range 0 w (fun x data =>
      if is_line (zget originalData (y * w + x))
      then dilate_around t w h x y data
      else data))
    originalData.

(** ** The canvas

    [ImageProcessor] owns one canvas, which every method reads and writes.
    Methods are state transformers over the canvas contents, which are
    kept as straight RGBA bytes: what [putImageData] stores is what
    [getImageData] and [toDataURL] give back.  A browser keeps each colour
    multiplied by alpha in a byte of its own.  It gives back the same
    bytes for every opaque pixel, for every alpha channel and for black;
    a colour stored with an alpha below 255 may come back rounded, and
    with alpha 0 it comes back as 0.  The statements below that give the
    colours of an output raster by a formula on the input pixels are
    therefore made at opaque pixels or for opaque images, and what the
    loops write for any alpha is stated of the arrays themselves. *)

Definition Canvas : Type := Raster.

Definition M (A : Type) : Type := Canvas -> A * Canvas.

#[global] Instance canvas_ret : MRet M := fun A (a : A) cv => (a, cv).

#[global] Instance canvas_bind : MBind M := fun A B (k : A -> M B) (c : M A) cv =>
  let '(a, cv') := c cv in k a cv'.

(** [this.canvas.width = w; this.canvas.height = h]: resizing a canvas
    clears it to transparent black. *)
Definition set_canvas_size (w h : Z) : M unit := fun _ =>
  (tt, MkRaster w h (replicate (Z.to_nat (w * h)) zero_pixel)).

(** [ctx.getImageData(0, 0, w, h)], called with the canvas size. *)
Definition getImageData (w h : Z) : M Raster := fun cv =>
  (MkRaster w h (pixels cv), cv).

(** [ctx.putImageData(imageData, 0, 0)] replaces the pixels. *)
Definition putImageData (data : list pixel) : M unit := fun cv =>
  (tt, MkRaster (width cv) (height cv) data).

(** [canvas.toDataURL('image/png')] encodes the current contents. *)
Definition toDataURL : M Raster := fun cv => (cv, cv).

Definition canvas_width : M Z := fun cv => (width cv, cv).
Definition canvas_height : M Z := fun cv => (height cv, cv).

Definition applyLineThickness (thickness : Z) : M unit :=
  if thickness <=? 1 then mret tt
  else
    w ← canvas_width;
    h ← canvas_height;
    imageData ← getImageData w h;
    putImageData (dilate thickness w h (pixels imageData)).

(** The optional dilation that ends two of the transforms. *)
Definition thicken (t w h : Z) (d : list pixel) : list pixel :=
  if t >? 1 then dilate t w h d else d.

(** The contents of a canvas that was just resized to the image. *)
Definition cleared (img : Raster) : list pixel :=
  replicate (Z.to_nat (width img * height img)) zero_pixel.

Section Engine.

(** [ctx.drawImage(img, 0, 0)] composites the image over what the canvas
    holds, pixel by pixel, with the "source-over" operator.  The operator
    belongs to the platform and is a parameter of the engine.  Every call
    is made on a canvas that [processImage] has resized to the image, so
    image and canvas pixels correspond one to one. *)
Variable source_over : pixel -> pixel -> pixel.

Definition drawImage (img : Raster) : M unit := fun cv =>
  (tt, MkRaster (width cv) (height cv)
         (zip_with source_over (pixels img) (pixels cv))).

Definition createSolidStencil (img : Raster) (settings : StencilSettings) : M Raster :=
  drawImage img;;
  imageData ← getImageData (width img) (height img);
  putImageData (applyStencilEffect (pixels imageData) settings);;
  (if lineThickness settings >? 1
   then applyLineThickness (lineThickness settings)
   else mret tt);;
  toDataURL.

Definition createBlackWhiteDesign (img : Raster) (settings : StencilSettings) : M Raster :=
  drawImage img;;
  imageData ← getImageData (width img) (height img);
  putImageData (blackWhite_loop (pixels imageData) settings);;
  toDataURL.

Definition createLineSketch (img : Raster) (settings : StencilSettings) : M Raster :=
  drawImage img;;
  imageData ← getImageData (width img) (height img);
  let grayData := grayscale_loop (pixels imageData) in
  let edgeData := applySobelEdgeDetection grayData (width img) (height img) in
  putImageData (threshold_loop edgeData settings);;
  (if lineThickness settings >? 1
   then applyLineThickness (lineThickness settings)
   else mret tt);;
  toDataURL.

(** [processImage]: [loaded] is the decoded file, or [None] when the
    browser fires [img.onerror].  The body of [img.onload] runs inside
    [try { ... } catch (error) { reject(error) }], which rejects the
    promise with whatever a canvas call throws.  In a browser
    [getImageData] throws for an image without pixels; the operations
    above do not, so the handler has no counterpart here.  [has_pixels]
    below marks the images on which no call throws. *)
Definition processImage (loaded : option Raster) (settings : StencilSettings) : M outcome :=
  match loaded with
  | None => mret (Rejected "Failed to load image")
  | Some img =>
      set_canvas_size (width img) (height img);;
      if String.eqb (mode settings) "solid-stencil" then
        s ← createSolidStencil img settings;
        mret (Resolved (MkResult (Some s) None None))
      else if String.eqb (mode settings) "black-white" then
        b ← createBlackWhiteDesign img settings;
        l ← createLineSketch img settings;
        mret (Resolved (MkResult None (Some b) (Some l)))
      else if String.eqb (mode settings) "line-sketch" then
        l ← createLineSketch img settings;
        mret (Resolved (MkResult None None (Some l)))
      else
        mret (Resolved empty_result)
  end.

(** What the three transforms leave on a canvas that holds [cvp], when
    the canvas has the size of the image. *)
Definition solid_on (img : Raster) (settings : StencilSettings) (cvp : list pixel) : Raster :=
  MkRaster (width img) (height img)
    (thicken (lineThickness settings) (width img) (height img)
       (applyStencilEffect (zip_with source_over (pixels img) cvp) settings)).

Definition bw_on (img : Raster) (settings : StencilSettings) (cvp : list pixel) : Raster :=
  MkRaster (width img) (height img)
    (blackWhite_loop (zip_with source_over (pixels img) cvp) settings).

Definition sketch_on (img : Raster) (settings : StencilSettings) (cvp : list pixel) : Raster :=
  MkRaster (width img) (height img)
    (thicken (lineThickness settings) (width img) (height img)
       (threshold_loop
          (applySobelEdgeDetection
             (grayscale_loop (zip_with source_over (pixels img) cvp))
             (width img) (height img))
          settings)).

End Engine.

(** A compositor on straight bytes: an opaque source replaces the
    destination, a source drawn on a cleared pixel is kept, and otherwise
    colour and coverage are mixed in proportion to the source alpha. *)
Definition mix (a s d : Z) : Z := (s * a + d * (255 - a)) / 255.

Definition ref_source_over (s d : pixel) : pixel :=
  if px_a s =? 255 then s
  else if px_a d =? 0 then s
  else Pixel (mix (px_a s) (px_r s) (px_r d))
             (mix (px_a s) (px_g s) (px_g d))
             (mix (px_a s) (px_b s) (px_b d))
             (mix (px_a s) 255 (px_a d)).

(** The compositor of a browser, which keeps colours multiplied by alpha:
    the pixel read back after a draw.  An opaque source still replaces
    the destination; a translucent colour is rounded twice on the way,
    so [200, 100, 50] with alpha 128 drawn on a cleared pixel reads
    [199, 100, 50]. *)
Definition premultiply (c a : Z) : Z := (c * a + 127) / 255.

Definition unpremultiply (c a : Z) : Z :=
  if a =? 0 then 0 else Z.min 255 ((c * 255 + a / 2) / a).

Definition premultiplied_over (s d : pixel) : pixel :=
  if px_a s =? 255 then s
  else
    let keep := 255 - px_a s in
    let a := px_a s + premultiply (px_a d) keep in
    let over (cs cd : Z) :=
      unpremultiply
        (premultiply cs (px_a s) + premultiply (premultiply cd (px_a d)) keep)
        a in
    Pixel (over (px_r s) (px_r d)) (over (px_g s) (px_g d))
          (over (px_b s) (px_b d)) a.


(** ** Vocabulary of the specification *)

(** The invariant of a raster: its buffer has one pixel per position. *)
Definition wf_raster (r : Raster) : Prop :=
  0 <= width r /\ 0 <= height r /\
  length (pixels r) = Z.to_nat (width r * height r).

(** An image with at least one pixel.  [getImageData] throws on an empty
    rectangle, so the transforms run to their end only on such images. *)
Definition has_pixels (r : Raster) : Prop := 0 < width r /\ 0 < height r.

Definition byte (z : Z) : Prop := 0 <= z <= 255.

Definition valid_pixel (p : pixel) : Prop :=
  byte (px_r p) /\ byte (px_g p) /\ byte (px_b p) /\ byte (px_a p).

Definition rgb_bytes (p : pixel) : Prop :=
  byte (px_r p) /\ byte (px_g p) /\ byte (px_b p).

Definition binary_pixel (p : pixel) : Prop :=
  (px_r p = 0 \/ px_r p = 255) /\ px_g p = px_r p /\ px_b p = px_r p.

Definition gray_level (v : Z) (p : pixel) : pixel := Pixel v v v (px_a p).

(** White (255) or black (0), with the polarity swapped on request. *)
Definition binarize (white inv : bool) : Z :=
  if xorb white inv then 255 else 0.

(** The formulas of the specification: BT.601 luminance and the
    contrast-adjusted, clamped luminance [C]. *)
Definition bt601 (p : pixel) : JS.num :=
  JS.add (JS.add (JS.mul (JS.of_int (px_r p)) JS.lit_0_299)
                 (JS.mul (JS.of_int (px_g p)) JS.lit_0_587))
         (JS.mul (JS.of_int (px_b p)) JS.lit_0_114).

Definition contrast_raw (l c : JS.num) : JS.num :=
  JS.mul (JS.add (JS.mul (JS.sub (JS.div l JS.lit_255) JS.lit_0_5) c) JS.lit_0_5)
         JS.lit_255.

Definition contrast_clamped (l c : JS.num) : JS.num :=
  JS.Math_max JS.lit_0 (JS.Math_min JS.lit_255 (contrast_raw l c)).

(** The solid stencil rule as the specification words it, on the clamped
    [C], and as the code applies it, on the value before clamping. *)
Definition solid_rule_clamped (settings : StencilSettings) (p : pixel) : pixel :=
  let c := contrast_clamped (bt601 p) (contrast settings) in
  gray_level (binarize (JS.gt c (threshold settings)) (invert settings)) p.

Definition solid_rule_raw (settings : StencilSettings) (p : pixel) : pixel :=
  let c := contrast_raw (bt601 p) (contrast settings) in
  gray_level (binarize (JS.gt c (threshold settings)) (invert settings)) p.

(** The black and white rule. *)
Definition bw_rule (settings : StencilSettings) (p : pixel) : pixel :=
  let c := contrast_clamped (bt601 p) (contrast settings) in
  let v := if invert settings then JS.sub JS.lit_255 c else c in
  gray_level (JS.toUint8Clamp v) p.

Definition invert_byte (x : Z) : Z := 255 - x.

Definition invert_pixel (p : pixel) : pixel :=
  Pixel (invert_byte (px_r p)) (invert_byte (px_g p)) (invert_byte (px_b p)) (px_a p).

(** The line sketch rules.  [gray_bytes] is the intermediate grayscale
    buffer; the edge rule as the specification words it compares the
    magnitude [M] with the threshold, the code compares the byte that [M]
    was stored as. *)
Definition gray_bytes (data : list pixel) : list pixel :=
  (fun p =>
     let g := JS.toUint8Clamp (bt601 p) in
     Pixel g g g (JS.toUint8Clamp (JS.of_int (px_a p)))) <$> data.

Definition interior (w h x y : Z) : bool :=
  (1 <=? x) && (x <? w - 1) && (1 <=? y) && (y <? h - 1).

Definition edge_rule_magnitude (settings : StencilSettings)
    (gray : list pixel) (w x y : Z) : Z :=
  let m := magnitude (sobel_sums gray w x y) in
  binarize (negb (JS.gt m (threshold settings))) (invert settings).

Definition edge_rule_stored (settings : StencilSettings)
    (gray : list pixel) (w x y : Z) : Z :=
  let m := JS.toUint8Clamp (magnitude (sobel_sums gray w x y)) in
  binarize (negb (JS.gt (JS.of_int m) (threshold settings))) (invert settings).

(** The Sobel kernels as the specification writes them, by row offset
    [ky] and column offset [kx], and the weighted sum of the gray levels
    around [(x, y)], taken row by row. *)
Definition Gx (ky kx : Z) : Z :=
  match ky, kx with
  | -1, -1 => -1 | -1, 1 => 1
  | 0, -1 => -2 | 0, 1 => 2
  | 1, -1 => -1 | 1, 1 => 1
  | _, _ => 0
  end.

Definition Gy (ky kx : Z) : Z :=
  match ky, kx with
  | -1, -1 => -1 | -1, 0 => -2 | -1, 1 => -1
  | 1, -1 => 1 | 1, 0 => 2 | 1, 1 => 1
  | _, _ => 0
  end.

Definition neighbourhood : list (Z * Z) :=
  [(-1, -1); (-1, 0); (-1, 1); (0, -1); (0, 0); (0, 1); (1, -1); (1, 0); (1, 1)].

Definition weighted_sum (K : Z -> Z -> Z) (gray : list pixel) (w x y : Z) : JS.num :=
  foldl (fun acc '(ky, kx) =>
           JS.add acc
             (JS.mul (chan px_r (zget gray ((y + ky) * w + (x + kx))))
                     (JS.of_int (K ky kx))))
        JS.lit_0 neighbourhood.

(** The gradient magnitude, clamped to [0, 255] and stored as a byte. *)
Definition gradient_byte (gray : list pixel) (w x y : Z) : Z :=
  let gx := weighted_sum Gx gray w x y in
  let gy := weighted_sum Gy gray w x y in
  let m := JS.sqrt (JS.add (JS.mul gx gx) (JS.mul gy gy)) in
  JS.toUint8Clamp (JS.Math_max JS.lit_0 (JS.Math_min JS.lit_255 m)).

(** The edge rule on the stored byte. *)
Definition edge_rule_byte (settings : StencilSettings)
    (gray : list pixel) (w x y : Z) : Z :=
  binarize (negb (JS.gt (JS.of_int (gradient_byte gray w x y)) (threshold settings)))
           (invert settings).

(** A number exactly halfway between two integers, [n + 1/2]. *)
Definition halfway (x : JS.num) : bool :=
  match x with
  | S754_finite false m (Zneg k) =>
      2 * (Z.pos m mod Z.pow_pos 2 k) =? Z.pow_pos 2 k
  | _ => false
  end.

(** A number that is not below zero. *)
Definition not_negative (x : JS.num) : bool :=
  match x with
  | S754_zero _ => true
  | S754_infinity s => negb s
  | S754_nan => false
  | S754_finite s _ _ => negb s
  end.

(** Test rasters for the dilation stage: one black pixel on white, and a
    black square of half-width [r] on white, clipped by the raster. *)
Definition black : pixel := Pixel 0 0 0 255.
Definition white : pixel := Pixel 255 255 255 255.

Definition raster_of (w h : Z) (f : Z -> Z -> pixel) : Raster :=
  MkRaster w h ((fun i => f (i mod w) (i / w)) <$> zrange 0 (w * h)).

Definition single_black (w h x0 y0 : Z) : Raster :=
  raster_of w h (fun x y => if (x =? x0) && (y =? y0) then black else white).

Definition black_square (w h x0 y0 r : Z) : Raster :=
  raster_of w h (fun x y =>
    if (Z.abs (x - x0) <=? r) && (Z.abs (y - y0) <=? r) then black else white).

#[global] Instance pixel_eq_dec : EqDecision pixel.
Proof. solve_decision. Defined.

#[global] Instance Raster_eq_dec : EqDecision Raster.
Proof. solve_decision. Defined.

Definition with_mode (m : string) (s : StencilSettings) : StencilSettings :=
  MkSettings (threshold s) (contrast s) (lineThickness s) (invert s) m.

Definition with_invert (b : bool) (s : StencilSettings) : StencilSettings :=
  MkSettings (threshold s) (contrast s) (lineThickness s) b (mode s).

(** ** Sample inputs *)

(** A new canvas element is 300 by 150 and transparent. *)
Definition initial_canvas : Canvas :=
  MkRaster 300 150 (replicate (Z.to_nat (300 * 150)) zero_pixel).

Definition lit_1_5 : JS.num := Eval vm_compute in JS.div (JS.of_int 3) (JS.of_int 2).

(** The settings the application starts with, in a given mode. *)
Definition default_settings (m : string) : StencilSettings :=
  MkSettings (JS.of_int 128) lit_1_5 2 false m.

Definition white_1x1 : Raster := MkRaster 1 1 [white].

Definition bright_settings : StencilSettings :=
  MkSettings (JS.of_int 255) lit_1_5 1 false "solid-stencil".

(** A black 3x3 raster whose bottom-right pixel has gray level 1. *)
Definition corner_3x3 : Raster :=
  MkRaster 3 3
    [black; black; black; black; black; black; black; black; Pixel 1 1 1 255].

Definition faint_edge_settings : StencilSettings :=
  MkSettings (JS.of_int 1) (JS.of_int 1) 1 false "line-sketch".

(** A pixel whose contrast-adjusted luminance is exactly 19.5. *)
Definition tie_1x1 : Raster := MkRaster 1 1 [Pixel 0 66 147 255].

Definition tone_settings : StencilSettings :=
  MkSettings (JS.of_int 128) lit_1_5 1 false "black-white".

(** ** The application around the processor (App.tsx)

    The application keeps the selected file and the last result in its
    state, runs [processImage] when either the file or the settings
    change, and offers each raster of the result for download. *)

(** [name.split('.')[0]]: the part of the name before its first dot. *)
Fixpoint before_dot (name : string) : string :=
  match name with
  | EmptyString => EmptyString
  | String c rest =>
      if Ascii.eqb c "."%char then EmptyString else String c (before_dot rest)
  end.

(** The callback [processImage] of the application: a resolved promise
    replaces the stored result, a rejected one is logged and leaves it. *)
Definition after_processing (previous : option ProcessingResult) (o : outcome) :
    option ProcessingResult :=
  match o with
  | Resolved r => Some r
  | Rejected _ => previous
  end.

(** [handleDownload]: the arguments of the call to [downloadImage], or
    [None] when the handler returns without calling it.  A [switch] with
    no matching case leaves [dataUrl] undefined. *)
Definition handleDownload (processingResult : option ProcessingResult)
    (selectedImage : option string) (type : string) : option (Raster * string) :=
  match processingResult, selectedImage with
  | Some r, Some name =>
      let '(dataUrl, suffix) :=
        if String.eqb type "solid" then (solidStencil r, "_solid_stencil"%string)
        else if String.eqb type "blackWhite" then (blackWhite r, "_black_white"%string)
        else if String.eqb type "lineSketch" then (lineSketch r, "_line_sketch"%string)
        else (None, "undefined"%string) in
      match dataUrl with
      | Some url =>
          Some (url, String.append (before_dot name) (String.append suffix ".png"))
      | None => None
      end
  | _, _ => None
  end.

(** Whether a file name contains a dot. *)
Fixpoint has_dot (name : string) : bool :=
  match name with
  | EmptyString => false
  | String c rest => Ascii.eqb c "."%char || has_dot rest
  end.

(** The three suffixes [handleDownload] can append. *)
Definition download_suffixes : list string :=
  ["_solid_stencil"%string; "_black_white"%string; "_line_sketch"%string].

(** A 3x3 raster of one gray level. *)
Definition gray_3x3 : Raster := MkRaster 3 3 (replicate 9 (Pixel 90 90 90 255)).

(** Settings with contrast 1 for the black and white transform. *)
Definition plain_tone_settings : StencilSettings :=
  MkSettings (JS.of_int 128) (JS.of_int 1) 1 false "black-white".

(** A faint, almost transparent pixel; an opaque mid-tone; and an opaque
    pixel whose luminance is within rounding of 87.5. *)
Definition translucent_1x1 : Raster := MkRaster 1 1 [Pixel 18 18 18 3].

Definition mid_tone_1x1 : Raster := MkRaster 1 1 [Pixel 120 130 90 255].

Definition near_tie_1x1 : Raster := MkRaster 1 1 [Pixel 1 147 8 255].


(** ** Further vocabulary *)

Definition with_threshold (t : JS.num) (s : StencilSettings) : StencilSettings :=
  MkSettings t (contrast s) (lineThickness s) (invert s) (mode s).

Definition with_contrast (c : JS.num) (s : StencilSettings) : StencilSettings :=
  MkSettings (threshold s) c (lineThickness s) (invert s) (mode s).

(** A pixel of a gray image: three equal colour bytes. *)
Definition gray_in (p : pixel) : Prop :=
  byte (px_r p) /\ px_g p = px_r p /\ px_b p = px_r p.


(** The position of a number on the extended real line, as a key that is
    compared lexicographically: class and sign, then exponent, then
    mantissa.  NaN has no position. *)
Definition rank (x : JS.num) : option (Z * Z * Z) :=
  match x with
  | S754_nan => None
  | S754_infinity true => Some (-2, 0, 0)
  | S754_finite true m e => Some (-1, - e, Z.neg m)
  | S754_zero _ => Some (0, 0, 0)
  | S754_finite false m e => Some (1, e, Z.pos m)
  | S754_infinity false => Some (2, 0, 0)
  end.

Definition key_lt (a b : Z * Z * Z) : Prop :=
  let '(a1, a2, a3) := a in
  let '(b1, b2, b3) := b in
  a1 < b1 \/ (a1 = b1 /\ (a2 < b2 \/ (a2 = b2 /\ a3 < b3))).

(** [x <= y] on numbers. *)
Definition JS_le (x y : JS.num) : bool := SFleb x y.

(** ** Vocabulary of the loop invariants *)

(** A loop nest that rewrites the cells of a rectangle, one store per
    position that passes the guard. *)
Definition rect_loop (w : Z) (f : Z -> Z -> pixel -> pixel)
    (guard : Z -> Z -> bool) (x0 x1 y0 y1 : Z) (d0 : list pixel) : list pixel :=
  for_range y0 y1 (fun y =>
    for_range x0 x1 (fun x d =>
      if guard x y then zalter (f x y) (y * w + x) d else d))
    d0.

Definition in_rect (guard : Z -> Z -> bool) (x0 x1 y0 y1 x y : Z) : bool :=
  (x0 <=? x) && (x <? x1) && (y0 <=? y) && (y <? y1) && guard x y.

Definition in_bounds (w h x y : Z) : bool :=
  (0 <=? x) && (x <? w) && (0 <=? y) && (y <? h).

(** Some line pixel of the snapshot [orig], among those the scan has
    reached before position [(xx, yy)], has [(x, y)] in its square. *)
Definition reached (t w h : Z) (orig : list pixel) (yy xx x y : Z) : Prop :=
  exists x' y',
    (0 <= x' < w /\ 0 <= y' < h) /\
    (y' < yy \/ (y' = yy /\ x' < xx)) /\
    is_line (zget orig (y' * w + x')) = true /\
    (- t < x - x' < t /\ - t < y - y' < t).

(** [d] is the snapshot with exactly the positions in [Q] painted. *)
Definition painted (w h : Z) (orig : list pixel) (Q : Z -> Z -> Prop)
    (d : list pixel) : Prop :=
  forall x y, 0 <= x < w -> 0 <= y < h ->
    (Q x y /\ zget d (y * w + x) = paint_black <$> zget orig (y * w + x)) \/
    (~ Q x y /\ zget d (y * w + x) = zget orig (y * w + x)).

(** The snapshot has a line pixel at offsets [dx, dy] in
    [-(t-1), t-1] from [(x, y)], inside the image. *)
Definition near_line (t w h : Z) (orig : list pixel) (x y : Z) : Prop :=
  exists dx dy,
    (- (t - 1) <= dx <= t - 1 /\ - (t - 1) <= dy <= t - 1) /\
    (0 <= x + dx < w /\ 0 <= y + dy < h) /\
    is_line (zget orig ((y + dy) * w + (x + dx))) = true.

(** The dyadic [m * 2^e], with [e < 0], is at most, or at least, [H / 2]. *)
Definition at_most_halves (m e H : Z) : Prop := 2 * m <= H * 2 ^ (- e).
Definition at_least_halves (m e H : Z) : Prop := H * 2 ^ (- e) <= 2 * m.

(** No bit was lost by the right shifts recorded in [r]. *)
Definition shift_exact (r : shr_record) : bool := negb (shr_r r || shr_s r).

(** Mantissa and exponent of a number that is not negative; zero is
    [0 * 2^-1]. *)
Definition dyadic_parts (x : JS.num) : option (Z * Z) :=
  match x with
  | S754_zero _ => Some (0, -1)
  | S754_finite false m e => Some (Z.pos m, e)
  | _ => None
  end.

(** Case analysis on every integer test of the goal. *)
Ltac ztest :=
  match goal with
  | |- context [(?n <=? ?m)%Z] => destruct (Z.leb_spec n m)
  | |- context [(?n <? ?m)%Z] => destruct (Z.ltb_spec n m)
  | |- context [(?n =? ?m)%Z] => destruct (Z.eqb_spec n m)
  end.

Ltac zbool := repeat ztest; simpl.

(** ** Loops *)

Section Loops.

Context {S : Type}.

Lemma zrange_nil (lo hi : Z) : hi <= lo -> zrange lo hi = [].
Proof.
  intros H. unfold zrange.
  replace (Z.to_nat (hi - lo)) with 0%nat by lia. reflexivity.
Qed.

Lemma zrange_snoc (lo hi : Z) :
  lo <= hi -> zrange lo (hi + 1) = zrange lo hi ++ [hi].
Proof.
  intros H. unfold zrange.
  replace (Z.to_nat (hi + 1 - lo)) with (Z.to_nat (hi - lo) + 1)%nat by lia.
  rewrite seq_app, fmap_app. simpl.
  do 2 f_equal. lia.
Qed.

Lemma for_range_empty (lo hi : Z) (body : Z -> S -> S) (s : S) :
  hi <= lo -> for_range lo hi body s = s.
Proof.
  intros H. unfold for_range. rewrite zrange_nil by assumption. reflexivity.
Qed.

Lemma for_range_snoc (lo hi : Z) (body : Z -> S -> S) (s : S) :
  lo <= hi ->
  for_range lo (hi + 1) body s = body hi (for_range lo hi body s).
Proof.
  intros H. unfold for_range.
  rewrite zrange_snoc by assumption.
  rewrite foldl_app. reflexivity.
Qed.

(** The invariant rule for a counting loop. *)
Lemma for_range_inv (P : Z -> S -> Prop) (lo hi : Z) (body : Z -> S -> S) (s : S) :
  lo <= hi ->
  P lo s ->
  (forall i acc, lo <= i < hi -> P i acc -> P (i + 1) (body i acc)) ->
  P hi (for_range lo hi body s).
Proof.
  intros Hle H0 Hstep.
  assert (G : forall n : nat, lo + Z.of_nat n <= hi ->
              P (lo + Z.of_nat n) (for_range lo (lo + Z.of_nat n) body s)).
  { induction n as [|n IH]; intros Hn.
    - rewrite Z.add_0_r. rewrite for_range_empty by lia. exact H0.
    - replace (lo + Z.of_nat (Datatypes.S n)) with (lo + Z.of_nat n + 1) by lia.
      rewrite for_range_snoc by lia.
      apply Hstep; [lia|]. apply IH. lia. }
  specialize (G (Z.to_nat (hi - lo))).
  replace (lo + Z.of_nat (Z.to_nat (hi - lo))) with hi in G by lia.
  apply G. lia.
Qed.

(** A loop whose range is empty or not, under one invariant that does
    not mention the counter. *)
Lemma for_range_preserves (P : S -> Prop) (lo hi : Z) (body : Z -> S -> S) (s : S) :
  P s ->
  (forall i acc, lo <= i < hi -> P acc -> P (body i acc)) ->
  P (for_range lo hi body s).
Proof.
  intros H0 Hstep.
  destruct (Z_le_gt_dec lo hi) as [Hle|Hgt].
  - apply (for_range_inv (fun _ => P)); auto.
  - rewrite for_range_empty by lia. exact H0.
Qed.

Lemma for_range_ext (lo hi : Z) (f g : Z -> S -> S) (s : S) :
  (forall i acc, lo <= i < hi -> f i acc = g i acc) ->
  for_range lo hi f s = for_range lo hi g s.
Proof.
  intros Hfg.
  destruct (Z_le_gt_dec lo hi) as [Hle|Hgt].
  - apply (for_range_inv (fun i acc => acc = for_range lo i g s)); auto.
    + rewrite for_range_empty by lia. reflexivity.
    + intros i acc Hi ->. rewrite for_range_snoc by lia. apply Hfg. exact Hi.
  - rewrite !for_range_empty by lia. reflexivity.
Qed.

End Loops.

(** ** Typed-array cells *)

Lemma zget_Some_lt (d : list pixel) (i : Z) (p : pixel) :
  zget d i = Some p -> 0 <= i < Z.of_nat (length d).
Proof.
  unfold zget. destruct (Z.ltb_spec i 0) as [|Hi]; [discriminate|].
  intros H. apply lookup_lt_Some in H. lia.
Qed.

Lemma zget_in_range (d : list pixel) (i : Z) :
  0 <= i < Z.of_nat (length d) -> exists p, zget d i = Some p.
Proof.
  intros Hi. unfold zget. destruct (Z.ltb_spec i 0); [lia|].
  destruct (lookup_lt_is_Some_2 d (Z.to_nat i)) as [p Hp]; [lia|].
  exists p. exact Hp.
Qed.

Lemma zget_of_nat (d : list pixel) (j : nat) : zget d (Z.of_nat j) = d !! j.
Proof.
  unfold zget. destruct (Z.ltb_spec (Z.of_nat j) 0); [lia|].
  rewrite Nat2Z.id. reflexivity.
Qed.

Lemma zget_ext (d1 d2 : list pixel) :
  (forall i, zget d1 i = zget d2 i) -> d1 = d2.
Proof.
  intros H. apply list_eq. intros j.
  rewrite <- !zget_of_nat. apply H.
Qed.

Lemma length_zalter (f : pixel -> pixel) (i : Z) (d : list pixel) :
  length (zalter f i d) = length d.
Proof.
  unfold zalter. destruct (i <? 0); [reflexivity|]. apply length_alter.
Qed.

Lemma zget_zalter (f : pixel -> pixel) (i j : Z) (d : list pixel) :
  zget (zalter f i d) j = if i =? j then f <$> zget d j else zget d j.
Proof.
  unfold zget, zalter.
  destruct (Z.eqb_spec i j) as [->|Hne].
  - destruct (Z.ltb_spec j 0); [reflexivity|].
    apply list_lookup_alter_eq.
  - destruct (Z.ltb_spec j 0); [reflexivity|].
    destruct (Z.ltb_spec i 0); [reflexivity|].
    apply list_lookup_alter_ne. lia.
Qed.

(** A store into cell [k] whose value was computed from a read of the
    same cell. *)
Lemma zalter_read (F : option pixel -> pixel -> pixel) (k : Z) (d : list pixel) :
  zalter (F (zget d k)) k d = zalter (fun p => F (Some p) p) k d.
Proof.
  unfold zalter, zget. destruct (k <? 0); [reflexivity|].
  apply list_alter_ext; [|reflexivity].
  intros p Hp. rewrite Hp. reflexivity.
Qed.

(** A loop that rewrites cell [k] at step [k]. *)
Lemma for_range_zalter (f : Z -> pixel -> pixel) (n : Z) (d0 : list pixel) (j : Z) :
  zget (for_range 0 n (fun k d => zalter (f k) k d) d0) j =
  if (0 <=? j) && (j <? n) then f j <$> zget d0 j else zget d0 j.
Proof.
  destruct (Z_le_gt_dec 0 n) as [Hn|Hn].
  - revert j.
    apply (for_range_inv (fun i d => forall j,
             zget d j = if (0 <=? j) && (j <? i) then f j <$> zget d0 j else zget d0 j));
      [exact Hn| |].
    + intros j. destruct (Z.leb_spec 0 j), (Z.ltb_spec j 0); simpl; try reflexivity; lia.
    + intros i acc Hi IH j. rewrite zget_zalter, IH.
      destruct (Z.eqb_spec i j) as [Heq|Hne];
        destruct (Z.leb_spec 0 j), (Z.ltb_spec j i), (Z.ltb_spec j (i + 1));
        simpl; try reflexivity; try lia; subst; reflexivity.
  - rewrite for_range_empty by lia.
    destruct (Z.leb_spec 0 j), (Z.ltb_spec j n); simpl; try reflexivity; lia.
Qed.

Lemma for_pixels_inplace (F : option pixel -> pixel -> pixel) (data : list pixel) :
  for_pixels data (fun k d => zalter (F (zget d k)) k d) data =
  (fun p => F (Some p) p) <$> data.
Proof.
  unfold for_pixels.
  rewrite (for_range_ext _ _ _ (fun k d => zalter (fun p => F (Some p) p) k d))
    by (intros; apply zalter_read).
  apply list_eq. intros j.
  rewrite <- zget_of_nat, for_range_zalter, zget_of_nat, list_lookup_fmap.
  destruct (Z.leb_spec 0 (Z.of_nat j)); [|lia].
  destruct (Z.ltb_spec (Z.of_nat j) (Z.of_nat (length data))) as [|Hge];
    [reflexivity|].
  simpl. rewrite (lookup_ge_None_2 data j) by lia. reflexivity.
Qed.

Lemma for_pixels_fresh (G : option pixel -> pixel) (data : list pixel) :
  for_pixels data (fun k g => zalter (fun _ => G (zget data k)) k g)
    (replicate (length data) zero_pixel) =
  (fun p => G (Some p)) <$> data.
Proof.
  unfold for_pixels.
  apply list_eq. intros j.
  rewrite <- zget_of_nat, for_range_zalter, zget_of_nat, list_lookup_fmap.
  destruct (Z.leb_spec 0 (Z.of_nat j)); [|lia].
  destruct (Z.ltb_spec (Z.of_nat j) (Z.of_nat (length data))) as [Hlt|Hge]; simpl.
  - destruct (lookup_lt_is_Some_2 data j) as [p Hp]; [lia|].
    rewrite zget_of_nat, lookup_replicate_2 by lia.
    rewrite Hp. reflexivity.
  - rewrite (lookup_ge_None_2 data j) by lia.
    rewrite zget_of_nat.
    apply lookup_ge_None_2. rewrite length_replicate. lia.
Qed.

Lemma applyStencilEffect_map (data : list pixel) (settings : StencilSettings) :
  applyStencilEffect data settings =
  (fun p => set_rgb (stencil_value settings (Some p)) p) <$> data.
Proof. apply (for_pixels_inplace (fun o => set_rgb (stencil_value settings o))). Qed.

Lemma blackWhite_loop_map (data : list pixel) (settings : StencilSettings) :
  blackWhite_loop data settings =
  (fun p => set_rgb (blackWhite_value settings (Some p)) p) <$> data.
Proof. apply (for_pixels_inplace (fun o => set_rgb (blackWhite_value settings o))). Qed.

Lemma threshold_loop_map (edgeData : list pixel) (settings : StencilSettings) :
  threshold_loop edgeData settings =
  (fun p => set_rgb (line_value settings (Some p)) p) <$> edgeData.
Proof. apply (for_pixels_inplace (fun o => set_rgb (line_value settings o))). Qed.

Lemma grayscale_loop_map (data : list pixel) :
  grayscale_loop data = (fun p => gray_pixel (Some p)) <$> data.
Proof. apply for_pixels_fresh. Qed.

(** ** Two-dimensional loops *)

Lemma index_inj (w x y x' y' : Z) :
  0 <= x < w -> 0 <= x' < w -> y * w + x = y' * w + x' -> x = x' /\ y = y'.
Proof.
  intros Hx Hx' E.
  assert (y = y') by nia. subst y'. split; [lia|reflexivity].
Qed.

Lemma zget_zalter_2d (f : pixel -> pixel) (w x y x' y' : Z) (d : list pixel) :
  0 <= x < w -> 0 <= x' < w ->
  zget (zalter f (y' * w + x') d) (y * w + x) =
  if (x =? x') && (y =? y') then f <$> zget d (y * w + x) else zget d (y * w + x).
Proof.
  intros Hx Hx'. rewrite zget_zalter.
  destruct (Z.eqb_spec (y' * w + x') (y * w + x)) as [E|NE].
  - apply index_inj in E; [|assumption..]. destruct E as [-> ->].
    rewrite !Z.eqb_refl. reflexivity.
  - destruct (Z.eqb_spec x x') as [->|]; [|reflexivity].
    destruct (Z.eqb_spec y y') as [->|]; [|reflexivity].
    congruence.
Qed.

Lemma for_range_shift {S : Type} (lo hi c : Z) (body : Z -> S -> S) (s : S) :
  for_range lo hi (fun i => body (c + i)) s = for_range (c + lo) (c + hi) body s.
Proof.
  unfold for_range, zrange.
  replace (c + hi - (c + lo)) with (hi - lo) by lia.
  generalize (seq 0 (Z.to_nat (hi - lo))) as l. intros l. revert s.
  induction l as [|k l IH]; intros s; simpl; [reflexivity|].
  rewrite IH. do 2 f_equal. lia.
Qed.

Section Rect.

Variable w : Z.
Variable f : Z -> Z -> pixel -> pixel.
Variable guard : Z -> Z -> bool.
Variables x0 x1 y0 y1 : Z.

Hypothesis guard_in_row :
  forall x y, x0 <= x < x1 -> guard x y = true -> 0 <= x < w.

Lemma rect_row (d0 : list pixel) (yy : Z) (x y : Z) :
  0 <= x < w ->
  zget (for_range x0 x1 (fun x d =>
          if guard x yy then zalter (f x yy) (yy * w + x) d else d) d0)
       (y * w + x) =
  if (y =? yy) && (x0 <=? x) && (x <? x1) && guard x y
  then f x y <$> zget d0 (y * w + x)
  else zget d0 (y * w + x).
Proof.
  intros Hx.
  destruct (Z_le_gt_dec x0 x1) as [Hle|Hgt].
  - revert x y Hx.
    apply (for_range_inv (fun xx d => forall x y, 0 <= x < w ->
             zget d (y * w + x) =
             if (y =? yy) && (x0 <=? x) && (x <? xx) && guard x y
             then f x y <$> zget d0 (y * w + x)
             else zget d0 (y * w + x))); [exact Hle| |].
    + intros x y Hx. zbool; try reflexivity; lia.
    + intros xx acc Hxx IH x y Hx.
      destruct (guard xx yy) eqn:Hg.
      * rewrite zget_zalter_2d by eauto. rewrite IH by assumption.
        destruct (Z.eqb_spec x xx) as [->|Hne].
        -- destruct (Z.eqb_spec y yy) as [->|]; simpl.
           ++ rewrite Hg. zbool; try reflexivity; lia.
           ++ reflexivity.
        -- simpl. zbool; try reflexivity; lia.
      * rewrite IH by assumption.
        destruct (Z.eqb_spec y yy) as [->|]; simpl; [|reflexivity].
        destruct (Z.eqb_spec x xx) as [->|Hne].
        -- rewrite Hg, !andb_false_r. reflexivity.
        -- zbool; try reflexivity; lia.
  - rewrite for_range_empty by lia. zbool; try reflexivity; lia.
Qed.

Lemma rect_loop_spec (d0 : list pixel) (x y : Z) :
  0 <= x < w ->
  zget (rect_loop w f guard x0 x1 y0 y1 d0) (y * w + x) =
  if in_rect guard x0 x1 y0 y1 x y then f x y <$> zget d0 (y * w + x) else zget d0 (y * w + x).
Proof.
  intros Hx. unfold rect_loop, in_rect.
  destruct (Z_le_gt_dec y0 y1) as [Hle|Hgt].
  - revert x y Hx.
    apply (for_range_inv (fun yy d => forall x y, 0 <= x < w ->
             zget d (y * w + x) =
             if (x0 <=? x) && (x <? x1) && (y0 <=? y) && (y <? yy) && guard x y
             then f x y <$> zget d0 (y * w + x)
             else zget d0 (y * w + x))); [exact Hle| |].
    + intros x y Hx. zbool; try reflexivity; lia.
    + intros yy acc Hyy IH x y Hx.
      rewrite rect_row by assumption. rewrite IH by assumption.
      destruct (guard x y); [|rewrite !andb_false_r; reflexivity].
      zbool; try reflexivity; lia.
  - rewrite for_range_empty by lia. zbool; try reflexivity; lia.
Qed.

Lemma length_rect_loop (d0 : list pixel) :
  length (rect_loop w f guard x0 x1 y0 y1 d0) = length d0.
Proof.
  unfold rect_loop.
  apply (for_range_preserves (fun d => length d = length d0)); [reflexivity|].
  intros y acc _ Hacc.
  apply (for_range_preserves (fun d => length d = length d0)); [exact Hacc|].
  intros x acc' _ Hacc'.
  destruct (guard x y); [|exact Hacc'].
  rewrite length_zalter. exact Hacc'.
Qed.

End Rect.

Lemma in_rect_iff (guard : Z -> Z -> bool) (x0 x1 y0 y1 x y : Z) :
  in_rect guard x0 x1 y0 y1 x y = true <->
  x0 <= x < x1 /\ y0 <= y < y1 /\ guard x y = true.
Proof.
  unfold in_rect. rewrite !andb_true_iff.
  rewrite !Z.leb_le, !Z.ltb_lt. tauto.
Qed.

(** ** The Sobel stage *)

Lemma applySobelEdgeDetection_spec (data : list pixel) (w h x y : Z) :
  0 <= x < w ->
  zget (applySobelEdgeDetection data w h) (y * w + x) =
  if interior w h x y
  then (fun _ => sobel_pixel data w x y)
         <$> zget (replicate (length data) zero_pixel) (y * w + x)
  else zget (replicate (length data) zero_pixel) (y * w + x).
Proof.
  intros Hx.
  change (applySobelEdgeDetection data w h)
    with (rect_loop w (fun x y _ => sobel_pixel data w x y) (fun _ _ => true)
            1 (w - 1) 1 (h - 1) (replicate (length data) zero_pixel)).
  rewrite rect_loop_spec by (intros; lia || assumption).
  unfold in_rect, interior. rewrite andb_true_r. reflexivity.
Qed.

Lemma length_applySobelEdgeDetection (data : list pixel) (w h : Z) :
  length (applySobelEdgeDetection data w h) = length data.
Proof.
  change (applySobelEdgeDetection data w h)
    with (rect_loop w (fun x y _ => sobel_pixel data w x y) (fun _ _ => true)
            1 (w - 1) 1 (h - 1) (replicate (length data) zero_pixel)).
  rewrite length_rect_loop, length_replicate. reflexivity.
Qed.

(** ** The dilation stage *)

Lemma in_bounds_iff (w h x y : Z) :
  in_bounds w h x y = true <-> 0 <= x < w /\ 0 <= y < h.
Proof.
  unfold in_bounds. rewrite !andb_true_iff, !Z.leb_le, !Z.ltb_lt. tauto.
Qed.

Lemma dilate_around_rect (t w h x y : Z) (data : list pixel) :
  dilate_around t w h x y data =
  rect_loop w (fun _ _ => paint_black) (in_bounds w h)
    (x + (- t + 1)) (x + t) (y + (- t + 1)) (y + t) data.
Proof.
  unfold dilate_around, rect_loop.
  rewrite <- (for_range_shift (- t + 1) t y
    (fun ny => for_range (x + (- t + 1)) (x + t) (fun nx d =>
       if in_bounds w h nx ny then zalter paint_black (ny * w + nx) d else d))).
  apply for_range_ext. intros dy acc _.
  rewrite <- (for_range_shift (- t + 1) t x
    (fun nx d => if in_bounds w h nx (y + dy)
                 then zalter paint_black ((y + dy) * w + nx) d else d)).
  reflexivity.
Qed.

Lemma paint_black_idem (o : option pixel) :
  paint_black <$> (paint_black <$> o) = paint_black <$> o.
Proof. destruct o; reflexivity. Qed.

Section Dilation.

Variables t w h : Z.
Variable orig : list pixel.

Lemma painted_equiv (Q Q' : Z -> Z -> Prop) (d : list pixel) :
  (forall x y, 0 <= x < w -> 0 <= y < h -> Q x y <-> Q' x y) ->
  painted w h orig Q d -> painted w h orig Q' d.
Proof.
  intros HQ Hd x y Hx Hy.
  destruct (Hd x y Hx Hy) as [[HQ1 E]|[HQ1 E]]; [left|right];
    (split; [|exact E]); specialize (HQ x y Hx Hy); tauto.
Qed.

Lemma dilate_step (xx yy : Z) (d : list pixel) :
  0 <= xx < w -> 0 <= yy < h ->
  painted w h orig (reached t w h orig yy xx) d ->
  painted w h orig (reached t w h orig yy (xx + 1))
    (if is_line (zget orig (yy * w + xx))
     then dilate_around t w h xx yy d else d).
Proof.
  intros Hxx Hyy Hd.
  destruct (is_line (zget orig (yy * w + xx))) eqn:Hline.
  - intros x y Hx Hy.
    rewrite dilate_around_rect.
    rewrite rect_loop_spec
      by first [exact Hx | intros ? ? _ Hg; apply in_bounds_iff in Hg; tauto].
    destruct (in_rect (in_bounds w h) (xx + (- t + 1)) (xx + t)
                (yy + (- t + 1)) (yy + t) x y) eqn:Hr.
    + apply in_rect_iff in Hr. left. split.
      * exists xx, yy. repeat split; try lia; try assumption.
      * destruct (Hd x y Hx Hy) as [[_ E]|[_ E]]; rewrite E;
          [apply paint_black_idem|reflexivity].
    + assert (Hnr : ~ (- t < x - xx < t /\ - t < y - yy < t)).
      { intros Hwin.
        assert (in_rect (in_bounds w h) (xx + (- t + 1)) (xx + t)
                  (yy + (- t + 1)) (yy + t) x y = true) as Hr'.
        { apply in_rect_iff. repeat split; try lia.
          apply in_bounds_iff. lia. }
        congruence. }
      destruct (Hd x y Hx Hy) as [[HQ E]|[HQ E]]; [left|right];
        (split; [|exact E]).
      * destruct HQ as (x' & y' & Hb & Hord & Hl & Hwin).
        exists x', y'. repeat split; try tauto; try lia.
      * intros (x' & y' & Hb & Hord & Hl & Hwin).
        destruct (Z.eq_dec x' xx) as [->|Hne].
        -- destruct (Z.eq_dec y' yy) as [->|Hne'].
           ++ apply Hnr. exact Hwin.
           ++ apply HQ. exists xx, y'. repeat split; try tauto; try lia.
        -- apply HQ. exists x', y'. repeat split; try tauto; try lia.
  - revert Hd. apply painted_equiv. intros x y Hx Hy.
    split; intros (x' & y' & Hb & Hord & Hl & Hwin).
    + exists x', y'. repeat split; try tauto; try lia.
    + exists x', y'. repeat split; try tauto.
      destruct (Z.eq_dec x' xx) as [->|Hne]; [|lia].
      destruct (Z.eq_dec y' yy) as [->|Hne']; [|lia].
      congruence.
Qed.

Lemma dilate_painted : painted w h orig (reached t w h orig h 0) (dilate t w h orig).
Proof.
  destruct (Z_le_gt_dec 0 w) as [Hw|Hw]; [|intros x y Hx; lia].
  destruct (Z_le_gt_dec 0 h) as [Hh|Hh]; [|intros x y Hx Hy; lia].
  unfold dilate.
  apply (for_range_inv (fun yy d => painted w h orig (reached t w h orig yy 0) d)); [exact Hh| |].
  - intros x y Hx Hy. right. split; [|reflexivity].
    intros (x' & y' & Hb & Hord & _). lia.
  - intros yy acc Hyy Hacc.
    apply (painted_equiv (reached t w h orig yy w)).
    { intros x y Hx Hy.
      split; intros (x' & y' & Hb & Hord & Hl & Hwin);
        exists x', y'; repeat split; try tauto; lia. }
    apply (for_range_inv (fun xx d => painted w h orig (reached t w h orig yy xx) d));
      [exact Hw|exact Hacc|].
    intros xx acc' Hxx Hacc'. apply dilate_step; assumption.
Qed.

Lemma reached_all (x y : Z) :
  reached t w h orig h 0 x y <-> near_line t w h orig x y.
Proof.
  split.
  - intros (x' & y' & Hb & Hord & Hl & Hwin).
    exists (x' - x), (y' - y). repeat split; try lia.
    replace (y + (y' - y)) with y' by lia.
    replace (x + (x' - x)) with x' by lia. exact Hl.
  - intros (dx & dy & Hoff & Hb & Hl).
    exists (x + dx), (y + dy). repeat split; try lia. exact Hl.
Qed.

Lemma dilate_spec :
  painted w h orig (near_line t w h orig) (dilate t w h orig).
Proof.
  apply (painted_equiv (reached t w h orig h 0)); [|apply dilate_painted].
  intros x y _ _. apply reached_all.
Qed.

(** Every cell holds its snapshot value or that value painted black. *)
Lemma dilate_cells :
  Forall2 (fun p q => q = p \/ q = paint_black p) orig (dilate t w h orig).
Proof.
  unfold dilate.
  set (R := Forall2 (fun p q : pixel => q = p \/ q = paint_black p) orig).
  assert (Hpaint : forall i d, R d -> R (zalter paint_black i d)).
  { intros i d Hd. unfold zalter. destruct (i <? 0); [exact Hd|].
    unfold R in *. clear R.
    revert Hd. generalize (Z.to_nat i) as n. clear i.
    intros n Hd. revert n.
    induction Hd as [|p q l l' Hpq Hl IH]; intros [|n]; simpl.
    - constructor.
    - constructor.
    - constructor; [|exact Hl].
      right. destruct Hpq as [->| ->]; reflexivity.
    - constructor; [exact Hpq|]. apply IH. }
  apply for_range_preserves.
  - apply Forall2_same_length_lookup_2; [reflexivity|].
    intros i p q Hp Hq. left. congruence.
  - intros y acc _ Hacc.
    apply for_range_preserves; [exact Hacc|].
    intros x acc' _ Hacc'.
    destruct (is_line (zget orig (y * w + x))); [|exact Hacc'].
    unfold dilate_around.
    apply for_range_preserves; [exact Hacc'|].
    intros dy a _ Ha.
    apply for_range_preserves; [exact Ha|].
    intros dx a' _ Ha'.
    destruct (_ && _); [|exact Ha'].
    apply Hpaint. exact Ha'.
Qed.

End Dilation.

(** ** Stores into a clamped byte array *)

Lemma toUint8Clamp_byte (x : JS.num) : byte (JS.toUint8Clamp x).
Proof.
  unfold byte, JS.toUint8Clamp.
  destruct x as [s|s| |s m e]; try destruct s; lia.
Qed.

Lemma zrange_elem (lo hi k : Z) : lo <= k < hi -> k ∈ zrange lo hi.
Proof.
  intros Hk. unfold zrange. apply list_elem_of_fmap.
  exists (Z.to_nat (k - lo)). split; [lia|].
  apply elem_of_seq. lia.
Qed.

Lemma zrange_forallb (P : Z -> bool) (lo hi : Z) :
  forallb P (zrange lo hi) = true -> forall k, lo <= k < hi -> P k = true.
Proof.
  intros H k Hk. rewrite forallb_forall in H. apply H.
  apply list_elem_of_In. apply zrange_elem. exact Hk.
Qed.


Lemma store_inverted_byte (k : Z) :
  byte k -> JS.toUint8Clamp (JS.sub JS.lit_255 (JS.of_int k)) = invert_byte k.
Proof.
  intros Hk.
  apply Z.eqb_eq.
  apply (zrange_forallb
           (fun k => JS.toUint8Clamp (JS.sub JS.lit_255 (JS.of_int k)) =? invert_byte k)
           0 256);
    [vm_compute; reflexivity|unfold byte in Hk; lia].
Qed.

Lemma store_inverted_tie (k : Z) :
  0 <= k <= 254 ->
  let c := JS.add (JS.of_int k) JS.lit_0_5 in
  Z.abs (JS.toUint8Clamp (JS.sub JS.lit_255 c) - invert_byte (JS.toUint8Clamp c)) = 1.
Proof.
  intros Hk. cbv zeta.
  apply Z.eqb_eq.
  apply (zrange_forallb
           (fun k =>
              Z.abs (JS.toUint8Clamp (JS.sub JS.lit_255 (JS.add (JS.of_int k) JS.lit_0_5))
                     - invert_byte (JS.toUint8Clamp (JS.add (JS.of_int k) JS.lit_0_5)))
              =? 1)
           0 255);
    [vm_compute; reflexivity|lia].
Qed.

Lemma store_binary (b inv : bool) :
  JS.toUint8Clamp (inverted inv (if b then JS.lit_255 else JS.lit_0)) =
  binarize b inv.
Proof. destruct b, inv; vm_compute; reflexivity. Qed.

Lemma binarize_binary (b inv : bool) : binarize b inv = 0 \/ binarize b inv = 255.
Proof. destruct b, inv; simpl; auto. Qed.

(** The literals are the binary64 values nearest to the decimals, for
    instance [0.299 = 0x1.322d0e5604189p-2]. *)
Example lit_0_299_bits : JS.lit_0_299 = S754_finite false 0x1322d0e5604189 (-54).
Proof. reflexivity. Qed.

Example lit_0_587_bits : JS.lit_0_587 = S754_finite false 0x12c8b439581062 (-53).
Proof. reflexivity. Qed.

Example lit_0_114_bits : JS.lit_0_114 = S754_finite false 0x1d2f1a9fbe76c9 (-56).
Proof. reflexivity. Qed.

Example store_ties_to_even :
  JS.toUint8Clamp (JS.div (JS.of_int 5) (JS.of_int 2)) = 2 /\
  JS.toUint8Clamp (JS.div (JS.of_int 7) (JS.of_int 2)) = 4 /\
  JS.toUint8Clamp (JS.sqrt (JS.of_int 2)) = 1 /\
  JS.toUint8Clamp (JS.of_int 300) = 255 /\
  JS.toUint8Clamp (JS.of_int (-3)) = 0 /\
  JS.toUint8Clamp JS.nan = 0.
Proof. vm_compute. repeat split; reflexivity. Qed.

(** ** Rounding of a difference

    [255 - c] is computed in binary64 and rounded once; the store into
    the byte array rounds again.  The lemmas below follow a value through
    the normalisation steps of [SFsub]. *)

(** Aligning a mantissa to a lower exponent multiplies it by a power of
    two. *)
Lemma shl_align_scaled (mx : positive) (ex f : Z) :
  exists mz e1,
    shl_align mx ex f = (mz, e1) /\ e1 <= ex /\
    Z.pos mz = Z.pos mx * 2 ^ (ex - e1) /\ (e1 = ex \/ e1 = f).
Proof.
  unfold shl_align. destruct (f - ex) as [|d|d] eqn:E.
  - exists mx, ex. rewrite Z.sub_diag. simpl. split; [reflexivity|]. lia.
  - exists mx, ex. rewrite Z.sub_diag. simpl. split; [reflexivity|]. lia.
  - exists (Pos.iter xO mx d), f. split; [reflexivity|].
    split; [lia|]. split; [|auto].
    change (Pos.iter xO mx d) with (shift_pos d mx).
    rewrite shift_pos_correct, Z.pow_pos_fold.
    replace (ex - f) with (Z.pos d) by lia. lia.
Qed.

Lemma pow2_nonpos (b : Z) : b <= 0 -> 2 ^ b <= 1.
Proof.
  intros Hb. destruct (Z.eq_dec b 0) as [->|]; [simpl; lia|].
  rewrite Z.pow_neg_r by lia. lia.
Qed.

Lemma pow2_halve (b : Z) : 0 < b -> 2 ^ b = 2 * 2 ^ (b - 1).
Proof.
  intros Hb. replace b with (Z.succ (b - 1)) at 1 by lia.
  apply Z.pow_succ_r. lia.
Qed.

(** A mantissa below [2^b] has at most [b] binary digits. *)
Lemma digits2_pos_le (m : positive) (b : Z) :
  Z.pos m < 2 ^ b -> Z.pos (digits2_pos m) <= b.
Proof.
  revert b. induction m as [m IH|m IH|]; intros b Hb; cbn [digits2_pos];
    (destruct (Z_le_gt_dec b 0) as [Hle|Hgt];
     [pose proof (pow2_nonpos b Hle); lia|]);
    [| |lia];
    rewrite Pos2Z.inj_succ;
    rewrite pow2_halve in Hb by lia;
    specialize (IH (b - 1) ltac:(lia)); lia.
Qed.

(** A right shift of the rounding record halves the mantissa, and loses
    nothing when the mantissa was even. *)
Lemma shr_1_floor (r : shr_record) :
  0 <= shr_m r ->
  shr_m (shr_1 r) = shr_m r / 2 /\
  (shift_exact r = true -> shr_m r mod 2 = 0 -> shift_exact (shr_1 r) = true).
Proof.
  destruct r as [m rb sb]. unfold shift_exact. cbn [shr_m shr_r shr_s].
  intros Hm.
  destruct m as [|[p|p|]|p]; cbn [shr_1 shr_m shr_r shr_s]; try lia.
  - split; [reflexivity|]. intros H _.
    rewrite negb_true_iff in H. rewrite H. reflexivity.
  - split; [Z.to_euclidean_division_equations; lia|].
    intros _ H. exfalso. Z.to_euclidean_division_equations. lia.
  - split; [Z.to_euclidean_division_equations; lia|].
    intros H _. rewrite negb_true_iff in H. rewrite H. reflexivity.
  - split; [reflexivity|]. intros _ H. discriminate H.
Qed.

Lemma floor_twice (m a b : Z) :
  0 < a -> 0 < b ->
  m / a / b = m / (a * b) /\
  (m mod (a * b) = 0 -> m mod a = 0 /\ (m / a) mod b = 0).
Proof.
  intros Ha Hb. split; [apply Z.div_div; lia|].
  intros H. apply Z.mod_divide in H; [|lia]. destruct H as [q Hq]. subst m.
  split.
  - replace (q * (a * b)) with (q * b * a) by ring. apply Z.mod_mul. lia.
  - replace (q * (a * b)) with (q * b * a) by ring.
    rewrite Z.div_mul by lia. apply Z.mod_mul. lia.
Qed.

Lemma iter_shr_floor (p : positive) (r : shr_record) :
  0 <= shr_m r ->
  shr_m (SpecFloat.iter_pos shr_1 p r) = shr_m r / 2 ^ Z.pos p /\
  (shift_exact r = true -> shr_m r mod 2 ^ Z.pos p = 0 ->
   shift_exact (SpecFloat.iter_pos shr_1 p r) = true).
Proof.
  revert r. induction p as [p IH|p IH|]; intros r Hr; cbn [SpecFloat.iter_pos].
  - destruct (shr_1_floor r Hr) as [E1 X1].
    assert (H1 : 0 <= shr_m (shr_1 r)) by (rewrite E1; apply Z.div_pos; lia).
    destruct (IH _ H1) as [E2 X2].
    assert (H2 : 0 <= shr_m (SpecFloat.iter_pos shr_1 p (shr_1 r)))
      by (rewrite E2; apply Z.div_pos; lia).
    destruct (IH _ H2) as [E3 X3].
    assert (Hp : 0 < 2 ^ Z.pos p) by (apply Z.pow_pos_nonneg; lia).
    replace (2 ^ Z.pos p~1) with (2 * (2 ^ Z.pos p * 2 ^ Z.pos p))
      by (replace (Z.pos p~1) with (1 + (Z.pos p + Z.pos p)) by lia;
          rewrite !Z.pow_add_r by lia; reflexivity).
    destruct (floor_twice (shr_m r) 2 (2 ^ Z.pos p * 2 ^ Z.pos p)) as [F1 G1];
      [lia|lia|].
    destruct (floor_twice (shr_m r / 2) (2 ^ Z.pos p) (2 ^ Z.pos p)) as [F2 G2];
      [lia|lia|].
    split.
    + rewrite E3, E2, E1, F2, F1. reflexivity.
    + intros Hx Hm. destruct (G1 Hm) as [Ha Hb]. destruct (G2 Hb) as [Hc Hd].
      apply X3; [apply X2; [apply X1; assumption|rewrite E1; exact Hc]|].
      rewrite E2, E1. exact Hd.
  - destruct (IH _ Hr) as [E2 X2].
    assert (H2 : 0 <= shr_m (SpecFloat.iter_pos shr_1 p r))
      by (rewrite E2; apply Z.div_pos; lia).
    destruct (IH _ H2) as [E3 X3].
    assert (Hp : 0 < 2 ^ Z.pos p) by (apply Z.pow_pos_nonneg; lia).
    replace (2 ^ Z.pos p~0) with (2 ^ Z.pos p * 2 ^ Z.pos p)
      by (replace (Z.pos p~0) with (Z.pos p + Z.pos p) by lia;
          rewrite Z.pow_add_r by lia; reflexivity).
    destruct (floor_twice (shr_m r) (2 ^ Z.pos p) (2 ^ Z.pos p)) as [F2 G2];
      [lia|lia|].
    split.
    + rewrite E3, E2, F2. reflexivity.
    + intros Hx Hm. destruct (G2 Hm) as [Hc Hd].
      apply X3; [apply X2; assumption|]. rewrite E2. exact Hd.
  - change (2 ^ 1) with 2. apply shr_1_floor, Hr.
Qed.

Lemma round_nearest_even_near (r : shr_record) :
  shr_m r <= round_nearest_even (shr_m r) (loc_of_shr_record r) <= shr_m r + 1 /\
  (shift_exact r = true ->
   round_nearest_even (shr_m r) (loc_of_shr_record r) = shr_m r).
Proof.
  destruct r as [m [] []]; unfold shift_exact; cbn;
    try destruct (Z.even m); split; try lia; try discriminate; reflexivity.
Qed.

Lemma pow2_split (a b : Z) : 0 <= a -> 0 <= b -> 2 ^ (a + b) = 2 ^ a * 2 ^ b.
Proof. intros. apply Z.pow_add_r; lia. Qed.

(** Dividing by [2^n], then rounding either way, keeps a value on its
    side of [H / 2] as long as [H / 2] has an exponent above the new
    one. *)
Lemma shift_keeps_sides (m m' e n H : Z) :
  0 <= m -> 0 < n -> e + n <= -1 ->
  m / 2 ^ n <= m' <= m / 2 ^ n + 1 ->
  (m mod 2 ^ n = 0 -> m' = m / 2 ^ n) ->
  (at_most_halves m e H -> at_most_halves m' (e + n) H) /\ (at_least_halves m e H -> at_least_halves m' (e + n) H).
Proof.
  intros Hm Hn He Hm' Hex. unfold at_most_halves, at_least_halves.
  replace (- e) with (n + (1 + (- (e + n) - 1))) by lia.
  replace (- (e + n)) with (1 + (- (e + n) - 1)) at 2 4 by lia.
  rewrite !pow2_split by lia. change (2 ^ 1) with 2.
  set (P := 2 ^ n) in *. set (K := 2 ^ (- (e + n) - 1)).
  assert (HP : 0 < P) by (apply Z.pow_pos_nonneg; lia).
  assert (HK : 0 < K) by (apply Z.pow_pos_nonneg; lia).
  pose proof (Z.div_mod m P ltac:(lia)) as Hdm.
  pose proof (Z.mod_pos_bound m P HP) as Hr.
  set (q := m / P) in *. set (r := m mod P) in *.
  split; intros Hs.
  - destruct (Z.eq_dec r 0) as [Hz|Hnz].
    + rewrite (Hex Hz). nia.
    + assert (q < H * K) by nia. lia.
  - assert (H * K <= q) by nia. lia.
Qed.

Lemma fexp_small (d e : Z) :
  d + e <= 9 -> e <= -1 -> fexp JS.prec JS.emax (d + e) <= -1.
Proof.
  intros. unfold fexp, emin, JS.prec, JS.emax.
  change IntDef.Z.max with Z.max. lia.
Qed.

Lemma Zdigits2_small (m e : Z) :
  0 <= m -> e <= -1 -> m <= 2 ^ (8 - e) -> Zdigits2 m + e <= 9.
Proof.
  intros Hm He Hb. destruct m as [|p|p]; [simpl; lia| |lia].
  cbn [Zdigits2].
  assert (Z.pos p < 2 ^ (9 - e)).
  { replace (9 - e) with (Z.succ (8 - e)) by lia.
    rewrite Z.pow_succ_r by lia.
    assert (0 < 2 ^ (8 - e)) by (apply Z.pow_pos_nonneg; lia). lia. }
  pose proof (digits2_pos_le p (9 - e) H). lia.
Qed.

(** One renormalisation step: the mantissa is shifted right and then
    rounded or truncated; either result stays on the same side of every
    half-integer. *)
Lemma shr_fexp_sides (m e : Z) (r : shr_record) (e' : Z) :
  0 <= m -> e <= -1 -> m <= 2 ^ (8 - e) ->
  shr_fexp JS.prec JS.emax m e loc_Exact = (r, e') ->
  0 <= shr_m r /\ e' <= -1 /\
  forall H,
    (at_most_halves m e H ->
     at_most_halves (round_nearest_even (shr_m r) (loc_of_shr_record r)) e' H /\
     at_most_halves (shr_m r) e' H) /\
    (at_least_halves m e H ->
     at_least_halves (round_nearest_even (shr_m r) (loc_of_shr_record r)) e' H /\
     at_least_halves (shr_m r) e' H).
Proof.
  intros Hm He Hb. unfold shr_fexp, shr. cbn [shr_record_of_loc].
  pose proof (fexp_small (Zdigits2 m) e (Zdigits2_small m e Hm He Hb) He) as Hf.
  destruct (fexp JS.prec JS.emax (Zdigits2 m + e) - e) as [|p|p] eqn:En;
    intros [= <- <-].
  - cbn. repeat split; try lia; assumption.
  - set (r0 := {| shr_m := m; shr_r := false; shr_s := false |}).
    destruct (iter_shr_floor p r0 Hm) as [Em Ex]. cbn [shr_m r0] in Em, Ex.
    assert (Hp : 0 < 2 ^ Z.pos p) by (apply Z.pow_pos_nonneg; lia).
    assert (Hq : 0 <= m / 2 ^ Z.pos p) by (apply Z.div_pos; lia).
    destruct (round_nearest_even_near (SpecFloat.iter_pos shr_1 p r0)) as [Hn Hx].
    split; [rewrite Em; exact Hq|]. split; [lia|].
    intros H.
    destruct (shift_keeps_sides m
                (round_nearest_even (shr_m (SpecFloat.iter_pos shr_1 p r0))
                   (loc_of_shr_record (SpecFloat.iter_pos shr_1 p r0)))
                e (Z.pos p) H) as [B1 A1];
      [lia|lia|lia|rewrite <- Em; exact Hn
      |intros Hz; rewrite <- Em; apply Hx, Ex; [reflexivity|exact Hz]|].
    destruct (shift_keeps_sides m (shr_m (SpecFloat.iter_pos shr_1 p r0))
                e (Z.pos p) H) as [B2 A2];
      [lia|lia|lia|rewrite Em; lia|intros _; exact Em|].
    split; intros Hs; split; auto.
  - cbn. repeat split; try lia; assumption.
Qed.

Lemma halves_below_256 (m e : Z) : e <= -1 -> at_most_halves m e 512 -> m <= 2 ^ (8 - e).
Proof.
  unfold at_most_halves. intros He H.
  replace (8 - e) with (8 + - e) by lia. rewrite pow2_split by lia.
  change (2 ^ 8) with 256. lia.
Qed.

(** Rounding a positive value at_most_halves 256 to binary64 keeps it on the same
    side of every half-integer. *)
Lemma binary_round_sides (M : positive) (ez : Z) :
  ez <= -1 -> Z.pos M < 2 ^ (8 - ez) ->
  exists m e,
    dyadic_parts (binary_round JS.prec JS.emax false M ez) = Some (m, e) /\
    0 <= m /\ e <= -1 /\
    forall H,
      (at_most_halves (Z.pos M) ez H -> at_most_halves m e H) /\
      (at_least_halves (Z.pos M) ez H -> at_least_halves m e H).
Proof.
  intros Hez HM. unfold binary_round.
  destruct (shl_align_scaled M ez
              (fexp JS.prec JS.emax (Z.pos (digits2_pos M) + ez)))
    as (mz & e1 & -> & He1 & Hmz & _).
  assert (Hscale : forall H,
            (at_most_halves (Z.pos M) ez H -> at_most_halves (Z.pos mz) e1 H) /\
            (at_least_halves (Z.pos M) ez H -> at_least_halves (Z.pos mz) e1 H)).
  { intros H. unfold at_most_halves, at_least_halves. rewrite Hmz.
    replace (- e1) with (- ez + (ez - e1)) by lia.
    rewrite pow2_split by lia.
    assert (0 < 2 ^ (ez - e1)) by (apply Z.pow_pos_nonneg; lia).
    split; intros; nia. }
  assert (Hb0 : at_most_halves (Z.pos M) ez 512).
  { unfold at_most_halves. replace (8 - ez) with (8 + - ez) in HM by lia.
    rewrite pow2_split in HM by lia. change (2 ^ 8) with 256 in HM. lia. }
  unfold binary_round_aux.
  destruct (shr_fexp JS.prec JS.emax (Z.pos mz) e1 loc_Exact) as [r1 e'] eqn:E1.
  destruct (shr_fexp_sides (Z.pos mz) e1 r1 e') as (Hr1 & He' & S1);
    [lia|lia|apply halves_below_256; [lia|apply Hscale, Hb0]|exact E1|].
  set (n1 := round_nearest_even (shr_m r1) (loc_of_shr_record r1)) in *.
  assert (Hn1 : 0 <= n1).
  { pose proof (round_nearest_even_near r1) as [? _]. fold n1 in H. lia. }
  destruct (shr_fexp JS.prec JS.emax n1 e' loc_Exact) as [r2 e''] eqn:E2.
  destruct (shr_fexp_sides n1 e' r2 e'') as (Hr2 & He'' & S2);
    [exact Hn1|exact He'|apply halves_below_256; [exact He'|apply S1, Hscale, Hb0]
    |exact E2|].
  assert (Hall : forall H,
            (at_most_halves (Z.pos M) ez H -> at_most_halves (shr_m r2) e'' H) /\
            (at_least_halves (Z.pos M) ez H -> at_least_halves (shr_m r2) e'' H)).
  { intros H. split; intros Hs.
    - apply S2, S1, Hscale, Hs.
    - apply S2, S1, Hscale, Hs. }
  destruct (shr_m r2) as [|p|p] eqn:Em; [| |lia].
  - exists 0, (-1). split; [reflexivity|]. split; [lia|]. split; [lia|].
    intros H. destruct (Hall H) as [B A]. unfold at_most_halves, at_least_halves in *.
    assert (0 < 2 ^ (- e'')) by (apply Z.pow_pos_nonneg; lia).
    change (2 ^ (- -1)) with 2.
    split; intros Hs; [specialize (B Hs)|specialize (A Hs)]; nia.
  - assert (Hle : (e'' <=? JS.emax - JS.prec) = true)
      by (apply Z.leb_le; unfold JS.emax, JS.prec; lia).
    rewrite Hle. exists (Z.pos p), e''. split; [reflexivity|].
    split; [lia|]. split; [exact He''|]. exact Hall.
Qed.

Lemma round_half_even_between (m : positive) (e t : Z) :
  e <= -1 ->
  (2 * t - 1) * 2 ^ (- e) < 2 * Z.pos m < (2 * t + 1) * 2 ^ (- e) ->
  JS.round_half_even m e = t.
Proof.
  intros He. destruct e as [|k|k]; try lia. clear He.
  unfold JS.round_half_even. rewrite Z.pow_pos_fold.
  change (- Z.neg k) with (Z.pos k).
  set (d := 2 ^ Z.pos k).
  assert (Hd : 0 < d) by (apply Z.pow_pos_nonneg; lia).
  pose proof (Z.div_mod (Z.pos m) d ltac:(lia)) as Hdm.
  pose proof (Z.mod_pos_bound (Z.pos m) d Hd) as Hr.
  set (q := Z.pos m / d) in *. set (r := Z.pos m mod d) in *.
  intros [Hlo Hhi].
  destruct (Z.compare_spec (2 * r) d) as [Heq|Hlt|Hgt].
  - exfalso.
    assert (E : 2 * Z.pos m = (2 * q + 1) * d) by lia.
    rewrite E in Hlo, Hhi.
    apply Z.mul_lt_mono_pos_r in Hlo, Hhi; lia.
  - assert (2 * t - 1 < 2 * q + 1) by nia.
    assert (2 * q < 2 * t + 1) by nia. lia.
  - assert (2 * t - 1 < 2 * q + 2) by nia.
    assert (2 * q + 1 < 2 * t + 1) by nia. lia.
Qed.

Lemma round_half_even_sides (m : positive) (e : Z) :
  e <= -1 ->
  halfway (S754_finite false m e) = false ->
  let r := JS.round_half_even m e in
  (2 * r - 1) * 2 ^ (- e) < 2 * Z.pos m < (2 * r + 1) * 2 ^ (- e).
Proof.
  intros He. destruct e as [|k|k]; try lia. clear He.
  unfold halfway, JS.round_half_even. rewrite !Z.pow_pos_fold.
  change (- Z.neg k) with (Z.pos k).
  set (d := 2 ^ Z.pos k).
  assert (Hd : 0 < d) by (apply Z.pow_pos_nonneg; lia).
  pose proof (Z.div_mod (Z.pos m) d ltac:(lia)) as Hdm.
  pose proof (Z.mod_pos_bound (Z.pos m) d Hd) as Hr.
  set (q := Z.pos m / d) in *. set (r := Z.pos m mod d) in *.
  intros Hh. apply Z.eqb_neq in Hh. cbv zeta.
  destruct (Z.compare_spec (2 * r) d) as [Heq|Hlt|Hgt].
  - contradiction.
  - nia.
  - nia.
Qed.

(** A value that is an odd multiple of one half sits halfway. *)
Lemma halfway_odd (m : positive) (e j : Z) :
  e <= -1 -> 2 * Z.pos m = (2 * j + 1) * 2 ^ (- e) ->
  halfway (S754_finite false m e) = true.
Proof.
  intros He. destruct e as [|k|k]; try lia. clear He.
  unfold halfway. rewrite !Z.pow_pos_fold.
  change (- Z.neg k) with (Z.pos k).
  replace (Z.pos k) with (1 + (Z.pos k - 1)) by lia.
  rewrite pow2_split by lia. change (2 ^ 1) with 2.
  set (K := 2 ^ (Z.pos k - 1)).
  assert (HK : 0 < K) by (apply Z.pow_pos_nonneg; lia).
  intros Hm. apply Z.eqb_eq.
  assert (Z.pos m = j * (2 * K) + K) by lia.
  rewrite H, Z.add_comm, Z.mod_add by lia.
  rewrite Z.mod_small by lia. lia.
Qed.

Lemma binary_round_negative (M : positive) (ez : Z) :
  JS.toUint8Clamp (binary_round JS.prec JS.emax true M ez) = 0.
Proof.
  unfold binary_round, binary_round_aux.
  destruct (shl_align _ _ _) as [mz e1].
  destruct (shr_fexp _ _ _ _ _) as [r1 e'].
  destruct (shr_fexp _ _ _ _ _) as [r2 e''].
  destruct (shr_m r2); [reflexivity| |reflexivity].
  destruct (_ <=? _); reflexivity.
Qed.

Lemma shl_align_fst (mx : positive) (ex ez : Z) :
  ez <= ex -> Z.pos (fst (shl_align mx ex ez)) = Z.pos mx * 2 ^ (ex - ez).
Proof.
  intros H. unfold shl_align. destruct (ez - ex) as [|d|d] eqn:E; cbn [fst].
  - replace (ex - ez) with 0 by lia. simpl. lia.
  - lia.
  - change (Pos.iter xO mx d) with (shift_pos d mx).
    rewrite shift_pos_correct, Z.pow_pos_fold.
    replace (ex - ez) with (Z.pos d) by lia. lia.
Qed.

Lemma lit_255_bits : JS.lit_255 = S754_finite false (255 * 2 ^ 45) (-45).
Proof. reflexivity. Qed.

(** The store of [255 - c] is 255 minus the store of [c], for every
    number [c] that is not negative, unless [c] or the computed
    difference is exactly halfway between two integers. *)

Lemma scaled_zero (a P : Z) : 0 < P -> a * P = 0 -> a = 0.
Proof. intros HP H. apply Z.mul_eq_0 in H. lia. Qed.

Lemma scaled_pos (a P : Z) (M : positive) : 0 < P -> a * P = Z.pos M -> 1 <= a.
Proof. intros HP H. destruct (Z_le_gt_dec a 0); [|lia]. exfalso. nia. Qed.

Lemma scaled_neg (a P : Z) (M : positive) : 0 < P -> a * P = Z.neg M -> a < 0.
Proof. intros HP H. destruct (Z_le_gt_dec 0 a); [|lia]. exfalso. nia. Qed.

Lemma store_inverted (c : JS.num) :
  not_negative c = true ->
  halfway c = false ->
  halfway (JS.sub JS.lit_255 c) = false ->
  JS.toUint8Clamp (JS.sub JS.lit_255 c) = invert_byte (JS.toUint8Clamp c).
Proof.
  unfold invert_byte.
  destruct c as [s|[]| |[] m e]; try discriminate; intros _ Hc Hd.
  - reflexivity.
  - reflexivity.
  - revert Hd. unfold JS.sub. rewrite lit_255_bits. cbn [SFsub cond_Zopp].
    change IntDef.Z.min with Z.min.
    set (ez := Z.min (-45) e).
    rewrite !shl_align_fst by lia.
    change (Z.pos (255 * 2 ^ 45)) with (255 * 2 ^ 45).
    assert (HA : 255 * 2 ^ 45 * 2 ^ (-45 - ez) = 255 * 2 ^ (- ez)).
    { replace (- ez) with (45 + (-45 - ez)) by lia.
      rewrite pow2_split by lia. ring. }
    rewrite HA. clear HA.
    assert (Hz : 0 < 2 ^ (- ez)) by (apply Z.pow_pos_nonneg; lia).
    assert (Hs : 0 < 2 ^ (e - ez)) by (apply Z.pow_pos_nonneg; lia).
    destruct (Z_le_gt_dec 0 e) as [He|He].
    + (* c is a whole number *)
      assert (Hez : ez = -45) by lia.
      assert (HB : 2 ^ (e - ez) = 2 ^ e * 2 ^ (- ez))
        by (replace (e - ez) with (e + - ez) by lia; apply pow2_split; lia).
      assert (He2 : 0 < 2 ^ e) by (apply Z.pow_pos_nonneg; lia).
      assert (Hr : JS.round_half_even m e = Z.pos m * 2 ^ e)
        by (destruct e; try lia; reflexivity).
      unfold JS.toUint8Clamp at 2. rewrite Hr.
      set (D := 255 - Z.pos m * 2 ^ e).
      replace (255 * 2 ^ (- ez) - Z.pos m * 2 ^ (e - ez)) with (D * 2 ^ (- ez))
        by (unfold D; rewrite HB; ring).
      destruct (D * 2 ^ (- ez)) as [|M|M] eqn:EM;
        cbn [binary_normalize]; intros Hd.
      * unfold JS.toUint8Clamp.
        assert (D = 0) by (eapply scaled_zero; [|exact EM]; lia).
        unfold D in *. lia.
      * assert (HD0 : 1 <= D) by (eapply scaled_pos; [|exact EM]; lia).
        destruct (binary_round_sides M ez) as (m2 & e2 & Hp & Hm2 & He2' & S);
          [lia| |].
        { replace (8 - ez) with (8 + - ez) by lia. rewrite pow2_split by lia.
          change (2 ^ 8) with 256. rewrite <- EM. unfold D. nia. }
        destruct (S (2 * D)) as [Sb Sa]. unfold at_most_halves, at_least_halves in Sb, Sa.
        rewrite <- EM in Sb, Sa.
        specialize (Sb ltac:(lia)). specialize (Sa ltac:(lia)).
        assert (Hp2 : 0 < 2 ^ (- e2)) by (apply Z.pow_pos_nonneg; lia).
        destruct (binary_round JS.prec JS.emax false M ez) as [?|?| |[] m3 e3];
          try discriminate.
        { injection Hp as <- <-. nia. }
        injection Hp as <- <-.
        unfold JS.toUint8Clamp.
        rewrite (round_half_even_between m3 e3 D) by (try assumption; nia).
        unfold D in *. lia.
      * rewrite binary_round_negative.
        assert (D < 0) by (eapply scaled_neg; [|exact EM]; lia).
        unfold D in *. lia.
    + (* c has a fractional part *)
      assert (Hez : ez <= -45 /\ ez <= e) by lia.
      assert (HB : 2 ^ (- ez) = 2 ^ (- e) * 2 ^ (e - ez))
        by (replace (- ez) with (- e + (e - ez)) by lia; apply pow2_split; lia).
      assert (Hk : 0 < 2 ^ (- e)) by (apply Z.pow_pos_nonneg; lia).
      pose proof (round_half_even_sides m e ltac:(lia) Hc) as Hr. cbv zeta in Hr.
      set (r := JS.round_half_even m e) in *.
      unfold JS.toUint8Clamp at 2. fold r.
      set (D := 255 * 2 ^ (- e) - Z.pos m).
      replace (255 * 2 ^ (- ez) - Z.pos m * 2 ^ (e - ez)) with (D * 2 ^ (e - ez))
        by (unfold D; rewrite HB; ring).
      destruct (D * 2 ^ (e - ez)) as [|M|M] eqn:EM;
        cbn [binary_normalize]; intros Hd.
      * unfold JS.toUint8Clamp.
        assert (D = 0) by (eapply scaled_zero; [|exact EM]; lia).
        assert (255 <= r) by (unfold D in *; nia). lia.
      * assert (HD0 : 1 <= D) by (eapply scaled_pos; [|exact EM]; lia).
        destruct (binary_round_sides M ez) as (m2 & e2 & Hp & Hm2 & He2' & S);
          [lia| |].
        { replace (8 - ez) with (8 + - ez) by lia. rewrite pow2_split by lia.
          change (2 ^ 8) with 256. rewrite <- EM, HB. unfold D. nia. }
        assert (Hr0 : 0 <= r <= 255) by (unfold D in *; nia).
        set (t := 255 - r).
        assert (Hlo : (2 * t - 1) * 2 ^ (- e) < 2 * D)
          by (unfold t, D; lia).
        assert (Hhi : 2 * D < (2 * t + 1) * 2 ^ (- e))
          by (unfold t, D; lia).
        destruct (S (2 * t - 1)) as [_ Sa]. destruct (S (2 * t + 1)) as [Sb _].
        unfold at_most_halves, at_least_halves in Sb, Sa.
        rewrite <- EM, HB in Sb, Sa.
        specialize (Sb ltac:(nia)). specialize (Sa ltac:(nia)).
        assert (Hp2 : 0 < 2 ^ (- e2)) by (apply Z.pow_pos_nonneg; lia).
        destruct (binary_round JS.prec JS.emax false M ez) as [?|?| |[] m3 e3];
          try discriminate.
        { injection Hp as <- <-. unfold JS.toUint8Clamp.
          change (2 ^ (- -1)) with 2 in Sa. lia. }
        injection Hp as <- <-.
        unfold JS.toUint8Clamp.
        assert (Hne1 : 2 * Z.pos m3 <> (2 * t - 1) * 2 ^ (- e3)).
        { intros E. replace (2 * t - 1) with (2 * (t - 1) + 1) in E by lia.
          rewrite (halfway_odd m3 e3 (t - 1) He2' E) in Hd. discriminate. }
        assert (Hne2 : 2 * Z.pos m3 <> (2 * t + 1) * 2 ^ (- e3)).
        { intros E. rewrite (halfway_odd m3 e3 t He2' E) in Hd. discriminate. }
        rewrite (round_half_even_between m3 e3 t) by (try assumption; lia).
        unfold t. lia.
      * rewrite binary_round_negative.
        assert (D < 0) by (eapply scaled_neg; [|exact EM]; lia).
        assert (255 <= r) by (unfold D in *; nia). lia.
Qed.

(** The clamped value of the black and white loop is a number that is
    not negative, or NaN. *)
Lemma Math_max_zero_not_negative (x : JS.num) :
  JS.Math_max JS.lit_0 x = JS.nan \/
  not_negative (JS.Math_max JS.lit_0 x) = true.
Proof.
  unfold JS.Math_max, JS.lit_0, JS.nan.
  destruct x as [[]|[]| |[] m e]; cbn; auto.
Qed.

(** Clamping from below does not change what is stored. *)
Lemma store_clamped_from_below (x : JS.num) :
  JS.toUint8Clamp (JS.Math_max JS.lit_0 x) = JS.toUint8Clamp x.
Proof.
  unfold JS.Math_max, JS.lit_0, JS.toUint8Clamp.
  destruct x as [[]|[]| |[] m e]; reflexivity.
Qed.

(** The stage bodies, read as the rules of the specification. *)

Lemma luminance_bt601 (p : pixel) : luminance (Some p) = bt601 p.
Proof. reflexivity. Qed.

Lemma stencil_pixel_rule (settings : StencilSettings) (p : pixel) :
  set_rgb (stencil_value settings (Some p)) p = solid_rule_raw settings p.
Proof.
  unfold set_rgb, stencil_value, solid_rule_raw, gray_level.
  rewrite store_binary. reflexivity.
Qed.

Lemma blackWhite_pixel_rule (settings : StencilSettings) (p : pixel) :
  set_rgb (blackWhite_value settings (Some p)) p = bw_rule settings p.
Proof.
  unfold set_rgb, blackWhite_value, finalGray, bw_rule, gray_level.
  unfold contrast_clamped, contrast_raw, contrasted, inverted.
  rewrite luminance_bt601. reflexivity.
Qed.

Lemma line_pixel_rule (settings : StencilSettings) (p : pixel) :
  set_rgb (line_value settings (Some p)) p =
  gray_level
    (binarize (negb (JS.gt (JS.of_int (px_r p)) (threshold settings)))
       (invert settings)) p.
Proof.
  unfold set_rgb, line_value, gray_level. simpl chan.
  destruct (JS.gt (JS.of_int (px_r p)) (threshold settings)),
    (invert settings); reflexivity.
Qed.

(** ** Running the methods on the canvas *)

Lemma applyLineThickness_run (t : Z) (cv : Canvas) :
  applyLineThickness t cv =
  (tt, MkRaster (width cv) (height cv)
         (if t <=? 1 then pixels cv
          else dilate t (width cv) (height cv) (pixels cv))).
Proof.
  unfold applyLineThickness.
  destruct (t <=? 1); destruct cv; reflexivity.
Qed.

Lemma thicken_run (t : Z) (cv : Canvas) :
  (if t >? 1 then applyLineThickness t else mret tt) cv =
  (tt, MkRaster (width cv) (height cv)
         (thicken t (width cv) (height cv) (pixels cv))).
Proof.
  unfold thicken.
  destruct (Z.gtb_spec t 1) as [Ht|Ht].
  - rewrite applyLineThickness_run.
    destruct (Z.leb_spec t 1); [lia|reflexivity].
  - destruct cv; reflexivity.
Qed.

Section Pipeline.

Variable source_over : pixel -> pixel -> pixel.

Lemma createSolidStencil_run (img : Raster) (settings : StencilSettings) (cv : Canvas) :
  createSolidStencil source_over img settings cv =
  let out :=
    MkRaster (width cv) (height cv)
      (thicken (lineThickness settings) (width cv) (height cv)
         (applyStencilEffect (zip_with source_over (pixels img) (pixels cv))
            settings)) in
  (out, out).
Proof.
  unfold createSolidStencil, mbind, canvas_bind.
  unfold drawImage, getImageData, putImageData, toDataURL. simpl.
  rewrite thicken_run. reflexivity.
Qed.

Lemma createBlackWhiteDesign_run (img : Raster) (settings : StencilSettings) (cv : Canvas) :
  createBlackWhiteDesign source_over img settings cv =
  let out :=
    MkRaster (width cv) (height cv)
      (blackWhite_loop (zip_with source_over (pixels img) (pixels cv)) settings) in
  (out, out).
Proof. reflexivity. Qed.

Lemma createLineSketch_run (img : Raster) (settings : StencilSettings) (cv : Canvas) :
  createLineSketch source_over img settings cv =
  let out :=
    MkRaster (width cv) (height cv)
      (thicken (lineThickness settings) (width cv) (height cv)
         (threshold_loop
            (applySobelEdgeDetection
               (grayscale_loop (zip_with source_over (pixels img) (pixels cv)))
               (width img) (height img))
            settings)) in
  (out, out).
Proof.
  unfold createLineSketch, mbind, canvas_bind.
  unfold drawImage, getImageData, putImageData, toDataURL. simpl.
  rewrite thicken_run. reflexivity.
Qed.

Lemma processImage_solid (img : Raster) (settings : StencilSettings) (cv : Canvas) :
  mode settings = "solid-stencil"%string ->
  processImage source_over (Some img) settings cv =
  (Resolved (MkResult (Some (solid_on source_over img settings (cleared img))) None None),
   solid_on source_over img settings (cleared img)).
Proof.
  intros Hm. unfold processImage. rewrite Hm. simpl String.eqb.
  unfold mbind, canvas_bind, set_canvas_size.
  rewrite createSolidStencil_run. reflexivity.
Qed.

Lemma processImage_bw (img : Raster) (settings : StencilSettings) (cv : Canvas) :
  mode settings = "black-white"%string ->
  processImage source_over (Some img) settings cv =
  let b := bw_on source_over img settings (cleared img) in
  let l := sketch_on source_over img settings (pixels b) in
  (Resolved (MkResult None (Some b) (Some l)), l).
Proof.
  intros Hm. unfold processImage. rewrite Hm. simpl String.eqb.
  unfold mbind, canvas_bind, set_canvas_size.
  rewrite createBlackWhiteDesign_run. cbv beta iota zeta.
  rewrite createLineSketch_run. reflexivity.
Qed.

Lemma processImage_sketch (img : Raster) (settings : StencilSettings) (cv : Canvas) :
  mode settings = "line-sketch"%string ->
  processImage source_over (Some img) settings cv =
  (Resolved (MkResult None None (Some (sketch_on source_over img settings (cleared img)))),
   sketch_on source_over img settings (cleared img)).
Proof.
  intros Hm. unfold processImage. rewrite Hm. simpl String.eqb.
  unfold mbind, canvas_bind, set_canvas_size.
  rewrite createLineSketch_run. reflexivity.
Qed.

Lemma processImage_other (img : Raster) (settings : StencilSettings) (cv : Canvas) :
  mode settings <> "solid-stencil"%string ->
  mode settings <> "black-white"%string ->
  mode settings <> "line-sketch"%string ->
  processImage source_over (Some img) settings cv =
  (Resolved empty_result, MkRaster (width img) (height img) (cleared img)).
Proof.
  intros H1 H2 H3. unfold processImage.
  apply String.eqb_neq in H1, H2, H3.
  unfold mbind, canvas_bind, set_canvas_size.
  rewrite H1, H2, H3. reflexivity.
Qed.


Lemma draw_opaque (l cvp : list pixel) :
  (forall s d, px_a s = 255 -> source_over s d = s) ->
  Forall (fun p => px_a p = 255) l ->
  length l = length cvp ->
  zip_with source_over l cvp = l.
Proof.
  intros Hop Hl. revert cvp.
  induction Hl as [|p l Hp Hl IH]; intros [|q cvp] Hlen; simpl in *;
    try discriminate; [reflexivity|].
  rewrite (Hop p q Hp), IH by lia. reflexivity.
Qed.

End Pipeline.

(** ** Auxiliary facts for the claims *)

Lemma zget_fmap (f : pixel -> pixel) (l : list pixel) (i : Z) :
  zget (f <$> l) i = f <$> zget l i.
Proof.
  unfold zget. destruct (i <? 0); [reflexivity|]. apply list_lookup_fmap.
Qed.

Lemma index_range (w h x y : Z) :
  0 <= x < w -> 0 <= y < h -> 0 <= y * w + x < w * h.
Proof. intros Hx Hy. nia. Qed.

Lemma zget_wf (r : Raster) (x y : Z) :
  wf_raster r -> 0 <= x < width r -> 0 <= y < height r ->
  exists p, zget (pixels r) (y * width r + x) = Some p.
Proof.
  intros (Hw & Hh & Hlen) Hx Hy. apply zget_in_range.
  pose proof (index_range _ _ _ _ Hx Hy). lia.
Qed.

Lemma thicken_cells (t w h : Z) (d : list pixel) :
  Forall2 (fun p q => q = p \/ q = paint_black p) d (thicken t w h d).
Proof.
  unfold thicken. destruct (t >? 1); [apply dilate_cells|].
  apply Forall2_same_length_lookup_2; [reflexivity|].
  intros i p q Hp Hq. left. congruence.
Qed.

Lemma thicken_Forall (P : pixel -> Prop) (t w h : Z) (d : list pixel) :
  (forall p, P p -> P (paint_black p)) ->
  Forall P d -> Forall P (thicken t w h d).
Proof.
  intros Hpaint Hd.
  pose proof (thicken_cells t w h d) as H2.
  induction H2 as [|p q l l' Hpq _ IH]; [constructor|].
  inversion Hd as [|? ? Hp Hl]; subst.
  constructor; [|apply IH; exact Hl].
  destruct Hpq as [->| ->]; auto.
Qed.

Lemma length_thicken (t w h : Z) (d : list pixel) :
  length (thicken t w h d) = length d.
Proof. symmetry. eapply Forall2_length, thicken_cells. Qed.

Lemma gray_level_binary (b inv : bool) (p : pixel) :
  binary_pixel (gray_level (binarize b inv) p).
Proof.
  unfold binary_pixel, gray_level. simpl.
  pose proof (binarize_binary b inv). tauto.
Qed.

Lemma paint_black_binary (p : pixel) : binary_pixel p -> binary_pixel (paint_black p).
Proof. intros _. unfold binary_pixel. simpl. auto. Qed.

Lemma grayscale_loop_gray_bytes (data : list pixel) :
  grayscale_loop data = gray_bytes data.
Proof. apply grayscale_loop_map. Qed.

Lemma dilate_20_by_20 :
  forallb (fun y0 => forallb (fun x0 =>
    bool_decide (dilate 3 20 20 (pixels (single_black 20 20 x0 y0)) =
                 pixels (black_square 20 20 x0 y0 2)))
    (zrange 0 20)) (zrange 0 20) = true.
Proof. vm_cast_no_check (eq_refl true). Qed.

Lemma sketch_staged_at (settings : StencilSettings) (data : list pixel) (w h x y : Z) :
  0 <= x < w -> 0 <= y < h -> Z.of_nat (length data) = w * h ->
  zget (threshold_loop (applySobelEdgeDetection (grayscale_loop data) w h) settings)
       (y * w + x) =
  Some (let e := if interior w h x y
                 then sobel_pixel (gray_bytes data) w x y else zero_pixel in
        gray_level
          (binarize (negb (JS.gt (JS.of_int (px_r e)) (threshold settings)))
             (invert settings)) e).
Proof.
  intros Hx Hy Hlen.
  rewrite threshold_loop_map, grayscale_loop_gray_bytes.
  rewrite zget_fmap, applySobelEdgeDetection_spec by exact Hx.
  assert (Hz : zget (replicate (length (gray_bytes data)) zero_pixel)
                 (y * w + x) = Some zero_pixel).
  { pose proof (index_range _ _ _ _ Hx Hy).
    unfold zget. destruct (Z.ltb_spec (y * w + x) 0); [lia|].
    apply lookup_replicate_2.
    unfold gray_bytes. rewrite length_fmap. lia. }
  rewrite Hz.
  destruct (interior w h x y); cbn [fmap option_fmap option_map];
    rewrite line_pixel_rule; reflexivity.
Qed.

Lemma interior_in_bounds (w h x y : Z) :
  interior w h x y = true -> 0 <= x < w /\ 0 <= y < h.
Proof.
  unfold interior. rewrite !andb_true_iff, !Z.leb_le, !Z.ltb_lt. lia.
Qed.

Lemma wf_length (r : Raster) :
  wf_raster r -> Z.of_nat (length (pixels r)) = width r * height r.
Proof. intros (Hw & Hh & Hlen). rewrite Hlen. nia. Qed.

(** An interior pixel of the thresholded edge array, for opaque image
    data. *)
Lemma sketch_interior_pixel (settings : StencilSettings) (data : list pixel)
    (w h x y : Z) :
  Z.of_nat (length data) = w * h ->
  Forall (fun p => px_a p = 255) data ->
  interior w h x y = true ->
  zget (threshold_loop (applySobelEdgeDetection (grayscale_loop data) w h) settings)
       (y * w + x) =
  Some (let v := edge_rule_stored settings (gray_bytes data) w x y in
        Pixel v v v 255).
Proof.
  intros Hlen Hop Hi.
  pose proof (interior_in_bounds w h x y Hi) as [Hx Hy].
  rewrite sketch_staged_at by assumption. rewrite Hi.
  destruct (zget_in_range data (y * w + x)) as [p Hp].
  { pose proof (index_range w h x y Hx Hy). lia. }
  assert (Ha : px_a p = 255).
  { unfold zget in Hp. destruct (_ <? 0); [discriminate|].
    rewrite Forall_lookup in Hop. exact (Hop _ _ Hp). }
  apply (f_equal Some).
  unfold gray_level, sobel_pixel, edge_rule_stored. cbn [px_r px_a].
  f_equal. unfold gray_bytes. rewrite zget_fmap, Hp.
  cbn [fmap option_fmap option_map chan px_a]. rewrite Ha.
  vm_compute. reflexivity.
Qed.

Lemma thicken_alpha (t w h : Z) (d : list pixel) (i : Z) :
  px_a <$> zget (thicken t w h d) i = px_a <$> zget d i.
Proof.
  unfold zget. destruct (i <? 0); [reflexivity|].
  pose proof (thicken_cells t w h d) as H2.
  generalize (Z.to_nat i) as n.
  induction H2 as [|p q l l' Hpq _ IH]; intros [|n]; simpl; try reflexivity.
  - destruct Hpq as [->| ->]; reflexivity.
  - apply IH.
Qed.

Lemma Forall_zip_with_valid (f : pixel -> pixel -> pixel) (P : pixel -> Prop)
    (l1 l2 : list pixel) :
  (forall s d, P s -> P d -> P (f s d)) ->
  Forall P l1 -> Forall P l2 -> Forall P (zip_with f l1 l2).
Proof.
  intros Hf H1. revert l2.
  induction H1 as [|p l Hp Hl IH]; intros l2 H2; simpl; [constructor|].
  destruct H2 as [|q l2 Hq H2]; constructor; auto.
Qed.

Lemma sobel_cells_valid (data : list pixel) (w h : Z) :
  Forall valid_pixel (applySobelEdgeDetection data w h).
Proof.
  unfold applySobelEdgeDetection.
  apply for_range_preserves.
  - apply Forall_replicate. repeat split; simpl; lia.
  - intros y acc _ Hacc. apply for_range_preserves; [exact Hacc|].
    intros x acc' _ Hacc'. unfold zalter.
    destruct (_ <? 0); [exact Hacc'|].
    apply Forall_alter; [exact Hacc'|]. intros ? _ _.
    unfold sobel_pixel, valid_pixel. cbn [px_r px_g px_b px_a].
    repeat split; apply toUint8Clamp_byte.
Qed.

Lemma binarize_byte (b inv : bool) : byte (binarize b inv).
Proof. unfold byte. destruct (binarize_binary b inv) as [-> | ->]; lia. Qed.

Lemma solid_cells (settings : StencilSettings) (t w h : Z) (data : list pixel) :
  Forall rgb_bytes (thicken t w h (applyStencilEffect data settings)) /\
  (Forall valid_pixel data ->
   Forall valid_pixel (thicken t w h (applyStencilEffect data settings))).
Proof.
  rewrite applyStencilEffect_map.
  split; [|intros Hd]; apply thicken_Forall.
  - intros p _. unfold rgb_bytes, byte. simpl. lia.
  - apply Forall_fmap, Forall_forall. intros p _. unfold compose.
    rewrite stencil_pixel_rule. unfold solid_rule_raw, gray_level, rgb_bytes.
    cbn [px_r px_g px_b]. repeat split; apply binarize_byte.
  - intros p (_ & _ & _ & Ha). unfold valid_pixel, byte in *. simpl. lia.
  - apply Forall_fmap. eapply Forall_impl; [exact Hd|].
    intros p (_ & _ & _ & Ha). unfold compose.
    rewrite stencil_pixel_rule. unfold solid_rule_raw, gray_level, valid_pixel.
    cbn [px_r px_g px_b px_a]. repeat split; try apply binarize_byte; apply Ha.
Qed.

Lemma bw_cells (settings : StencilSettings) (data : list pixel) :
  Forall rgb_bytes (blackWhite_loop data settings) /\
  (Forall valid_pixel data -> Forall valid_pixel (blackWhite_loop data settings)).
Proof.
  rewrite blackWhite_loop_map.
  split; [|intros Hd]; apply Forall_fmap.
  - apply Forall_forall. intros p _. unfold compose, set_rgb, rgb_bytes.
    cbn [px_r px_g px_b]. repeat split; apply toUint8Clamp_byte.
  - eapply Forall_impl; [exact Hd|].
    intros p (_ & _ & _ & Ha). unfold compose, set_rgb, valid_pixel.
    cbn [px_r px_g px_b px_a]. repeat split; try apply toUint8Clamp_byte; apply Ha.
Qed.

Lemma valid_rgb_bytes (p : pixel) : valid_pixel p -> rgb_bytes p.
Proof. unfold valid_pixel, rgb_bytes. tauto. Qed.

Lemma sketch_cells (settings : StencilSettings) (t w h : Z) (data : list pixel) :
  Forall valid_pixel
    (thicken t w h
       (threshold_loop (applySobelEdgeDetection (grayscale_loop data) w h) settings)).
Proof.
  apply thicken_Forall.
  - intros p (_ & _ & _ & Ha). unfold valid_pixel, byte in *. simpl. lia.
  - rewrite threshold_loop_map. apply Forall_fmap.
    eapply Forall_impl; [apply sobel_cells_valid|].
    intros p (_ & _ & _ & Ha). unfold compose.
    rewrite line_pixel_rule. unfold gray_level, valid_pixel.
    cbn [px_r px_g px_b px_a]. repeat split; try apply binarize_byte; apply Ha.
Qed.

(** The loops of the two pixel transforms, as the rules they apply. *)
Lemma applyStencilEffect_rule (data : list pixel) (settings : StencilSettings) :
  applyStencilEffect data settings = solid_rule_raw settings <$> data.
Proof.
  rewrite applyStencilEffect_map. apply list_fmap_ext.
  intros i p _. apply stencil_pixel_rule.
Qed.

Lemma blackWhite_loop_rule (data : list pixel) (settings : StencilSettings) :
  blackWhite_loop data settings = bw_rule settings <$> data.
Proof.
  rewrite blackWhite_loop_map. apply list_fmap_ext.
  intros i p _. apply blackWhite_pixel_rule.
Qed.

(** The nested loops over the kernels compute the two weighted sums of
    the specification. *)
Lemma sobel_sums_weighted (gray : list pixel) (w x y : Z) :
  sobel_sums gray w x y =
  (weighted_sum Gx gray w x y, weighted_sum Gy gray w x y).
Proof.
  unfold sobel_sums, weighted_sum, for_range, neighbourhood.
  change (zrange (-1) 2) with [-1; 0; 1].
  cbn [foldl]. reflexivity.
Qed.

Lemma gradient_byte_stored (gray : list pixel) (w x y : Z) :
  gradient_byte gray w x y =
  JS.toUint8Clamp (magnitude (sobel_sums gray w x y)).
Proof.
  unfold gradient_byte, magnitude.
  rewrite sobel_sums_weighted, store_clamped_from_below. reflexivity.
Qed.

Lemma edge_rule_stored_byte (settings : StencilSettings)
    (gray : list pixel) (w x y : Z) :
  edge_rule_stored settings gray w x y = edge_rule_byte settings gray w x y.
Proof.
  unfold edge_rule_stored, edge_rule_byte.
  rewrite gradient_byte_stored. reflexivity.
Qed.


Lemma ref_source_over_opaque (s d : pixel) :
  px_a s = 255 -> ref_source_over s d = s.
Proof. intros H. unfold ref_source_over. rewrite H. reflexivity. Qed.


Lemma premultiplied_over_opaque (s d : pixel) :
  px_a s = 255 -> premultiplied_over s d = s.
Proof. intros H. unfold premultiplied_over. rewrite H. reflexivity. Qed.

Example premultiplied_over_rounds :
  premultiplied_over (Pixel 200 100 50 128) zero_pixel = Pixel 199 100 50 128 /\
  premultiplied_over (Pixel 18 18 18 3) zero_pixel = Pixel 0 0 0 3 /\
  premultiplied_over (Pixel 255 255 255 0) zero_pixel = zero_pixel.
Proof. repeat split; reflexivity. Qed.

Lemma mix_byte (a x y : Z) : byte a -> byte x -> byte y -> byte (mix a x y).
Proof.
  unfold byte, mix. intros Ha Hx Hy. split.
  - apply Z.div_pos; nia.
  - apply Z.div_le_upper_bound; nia.
Qed.

Lemma ref_source_over_valid (s d : pixel) :
  valid_pixel s -> valid_pixel d -> valid_pixel (ref_source_over s d).
Proof.
  intros Hs Hd. unfold ref_source_over.
  destruct (px_a s =? 255); [exact Hs|].
  destruct (px_a d =? 0); [exact Hs|].
  destruct Hs as (? & ? & ? & ?), Hd as (? & ? & ? & ?).
  unfold valid_pixel. cbn [px_r px_g px_b px_a].
  repeat split; apply mix_byte; unfold byte in *; try assumption; lia.
Qed.

(** ** The claims *)

(** C3: the dilation stage with lineThickness t <= 1 leaves the canvas
    as it is; with t > 1 a pixel of the output is black exactly when
    some pixel at offsets dx, dy in [-(t-1), t-1], inside the image, is
    black in the snapshot taken before dilation (its RGB is then set to
    0 and its alpha kept), and every other pixel keeps its snapshot
    value; with t = 3, a single black pixel on a white 20x20 raster
    becomes the 5x5 black square centred on it, clipped by the raster. *)
Theorem dilation_single_pass_from_snapshot (t : Z) (cv : Canvas) :
  (t <= 1 -> snd (applyLineThickness t cv) = cv) /\
  (1 < t -> wf_raster cv ->
   let cv' := snd (applyLineThickness t cv) in
   width cv' = width cv /\ height cv' = height cv /\
   forall x y, 0 <= x < width cv -> 0 <= y < height cv ->
     let i := y * width cv + x in
     let near := near_line t (width cv) (height cv) (pixels cv) x y in
     (is_line (zget (pixels cv') i) = true <-> near) /\
     (near -> zget (pixels cv') i = paint_black <$> zget (pixels cv) i) /\
     (~ near -> zget (pixels cv') i = zget (pixels cv) i)) /\
  (forall x0 y0, 0 <= x0 < 20 -> 0 <= y0 < 20 ->
   snd (applyLineThickness 3 (single_black 20 20 x0 y0)) =
   black_square 20 20 x0 y0 2).
Proof.
  split; [|split].
  - intros Ht. rewrite applyLineThickness_run.
    destruct (Z.leb_spec t 1); [|lia]. destruct cv; reflexivity.
  - intros Ht Hwf. rewrite applyLineThickness_run.
    destruct (Z.leb_spec t 1); [lia|]. simpl.
    split; [reflexivity|]. split; [reflexivity|].
    intros x y Hx Hy.
    destruct (zget_wf cv x y Hwf Hx Hy) as [p Hp].
    destruct (dilate_spec t (width cv) (height cv) (pixels cv) x y Hx Hy)
      as [[Hn E]|[Hn E]].
    + split; [|split].
      * rewrite E, Hp. simpl. tauto.
      * intros _. exact E.
      * intros Hnn. contradiction.
    + split; [|split].
      * rewrite E, Hp. simpl. split; [|intros; contradiction].
        intros Hr. exfalso. apply Hn.
        exists 0, 0. repeat split; try lia.
        rewrite !Z.add_0_r, Hp. exact Hr.
      * intros Hnn. contradiction.
      * intros _. exact E.
  - intros x0 y0 Hx0 Hy0. rewrite applyLineThickness_run.
    change (3 <=? 1) with false. cbv iota.
    change (black_square 20 20 x0 y0 2)
      with (MkRaster 20 20 (pixels (black_square 20 20 x0 y0 2))).
    change (width (single_black 20 20 x0 y0)) with 20.
    change (height (single_black 20 20 x0 y0)) with 20.
    cbn [snd]. f_equal.
    pose proof dilate_20_by_20 as H.
    apply (zrange_forallb _ 0 20) with (k := y0) in H; [|exact Hy0].
    apply (zrange_forallb _ 0 20) with (k := x0) in H; [|exact Hx0].
    apply bool_decide_eq_true in H. exact H.
Qed.

Section Claims.

Variable source_over : pixel -> pixel -> pixel.

(** C5 (amended): when settings.mode is none of 'solid-stencil',
    'black-white' and 'line-sketch', processing completes without an
    error and resolves with a result in which all three fields are
    absent. *)
Theorem unrecognised_mode_resolves_empty
    (img : Raster) (settings : StencilSettings) (cv : Canvas) :
  mode settings <> "solid-stencil"%string ->
  mode settings <> "black-white"%string ->
  mode settings <> "line-sketch"%string ->
  fst (processImage source_over (Some img) settings cv) =
    Resolved empty_result.
Proof.
  intros H1 H2 H3. rewrite processImage_other by assumption. reflexivity.
Qed.

(** C6: for a decoded image, mode 'solid-stencil' resolves with only
    solidStencil filled, mode 'black-white' with blackWhite and
    lineSketch filled and solidStencil absent, mode 'line-sketch' with
    only lineSketch filled; each field holds what the corresponding
    transform returns on the shared canvas. *)
Theorem dispatcher_fills_fields_by_mode
    (img : Raster) (settings : StencilSettings) (cv : Canvas) :
  let fresh := MkRaster (width img) (height img) (cleared img) in
  (mode settings = "solid-stencil"%string ->
   fst (processImage source_over (Some img) settings cv) =
     Resolved (MkResult
       (Some (fst (createSolidStencil source_over img settings fresh)))
       None None)) /\
  (mode settings = "black-white"%string ->
   let (b, cv1) := createBlackWhiteDesign source_over img settings fresh in
   fst (processImage source_over (Some img) settings cv) =
     Resolved (MkResult None (Some b)
       (Some (fst (createLineSketch source_over img settings cv1))))) /\
  (mode settings = "line-sketch"%string ->
   fst (processImage source_over (Some img) settings cv) =
     Resolved (MkResult None None
       (Some (fst (createLineSketch source_over img settings fresh))))).
Proof.
  intros fresh. split; [|split]; intros Hm.
  - rewrite processImage_solid, createSolidStencil_run by exact Hm. reflexivity.
  - rewrite createBlackWhiteDesign_run. cbv zeta.
    rewrite processImage_bw, createLineSketch_run by exact Hm. reflexivity.
  - rewrite processImage_sketch, createLineSketch_run by exact Hm. reflexivity.
Qed.

(** C9: every R, G and B channel of every raster in a resolved result is
    in [0, 255], whatever the image, the settings and the compositor;
    and when the input channels are bytes and the compositor yields
    bytes, every alpha channel is in [0, 255] as well. *)
Theorem output_channels_are_bytes
    (loaded : option Raster) (settings : StencilSettings) (cv : Canvas)
    (r : ProcessingResult) (out : Raster) :
  fst (processImage source_over loaded settings cv) = Resolved r ->
  solidStencil r = Some out \/ blackWhite r = Some out \/ lineSketch r = Some out ->
  Forall rgb_bytes (pixels out) /\
  ((forall s d, valid_pixel s -> valid_pixel d -> valid_pixel (source_over s d)) ->
   (forall img, loaded = Some img -> Forall valid_pixel (pixels img)) ->
   Forall valid_pixel (pixels out)).
Proof.
  intros Hrun Hout.
  destruct loaded as [img|]; [|discriminate].
  assert (Hdraw :
    (forall s d, valid_pixel s -> valid_pixel d -> valid_pixel (source_over s d)) ->
    (forall img', Some img = Some img' -> Forall valid_pixel (pixels img')) ->
    Forall valid_pixel (zip_with source_over (pixels img) (cleared img))).
  { intros Hso Himg. apply Forall_zip_with_valid; [exact Hso|auto|].
    apply Forall_replicate. repeat split; simpl; lia. }
  destruct (String.eqb_spec (mode settings) "solid-stencil") as [Hs|Hs].
  { rewrite processImage_solid in Hrun by exact Hs. simpl in Hrun.
    injection Hrun as <-. simpl in Hout.
    destruct Hout as [[= <-]|[[=]|[=]]]. cbn [solid_on pixels].
    pose proof (solid_cells settings (lineThickness settings) (width img)
                  (height img) (zip_with source_over (pixels img) (cleared img)))
      as [H1 H2].
    split; [exact H1|]. intros Hso Himg. apply H2. auto. }
  destruct (String.eqb_spec (mode settings) "black-white") as [Hb|Hb].
  { rewrite processImage_bw in Hrun by exact Hb. cbv zeta in Hrun.
    cbn [fst] in Hrun. injection Hrun as <-. cbn [solidStencil blackWhite lineSketch] in Hout.
    destruct Hout as [[=]|[[= <-]|[= <-]]].
    - cbn [bw_on pixels].
      pose proof (bw_cells settings
                    (zip_with source_over (pixels img) (cleared img)))
        as [H1 H2].
      split; [exact H1|]. intros Hso Himg. apply H2. auto.
    - cbn [sketch_on pixels].
      match goal with |- Forall rgb_bytes ?l /\ _ =>
        assert (Hv : Forall valid_pixel l) by apply sketch_cells end.
      split; [|intros _ _; exact Hv].
      eapply Forall_impl; [exact Hv|]. apply valid_rgb_bytes. }
  destruct (String.eqb_spec (mode settings) "line-sketch") as [Hl|Hl].
  { rewrite processImage_sketch in Hrun by exact Hl. cbn [fst] in Hrun.
    injection Hrun as <-. cbn [solidStencil blackWhite lineSketch] in Hout.
    destruct Hout as [[=]|[[=]|[= <-]]].
    cbn [sketch_on pixels].
    match goal with |- Forall rgb_bytes ?l /\ _ =>
      assert (Hv : Forall valid_pixel l) by apply sketch_cells end.
    split; [|intros _ _; exact Hv].
    eapply Forall_impl; [exact Hv|]. apply valid_rgb_bytes. }
  rewrite processImage_other in Hrun by assumption. cbn [fst] in Hrun.
  injection Hrun as <-. simpl in Hout.
  destruct Hout as [[=]|[[=]|[=]]].
Qed.

(** An opaque source pixel replaces what the canvas holds. *)
Hypothesis source_over_opaque :
  forall s d, px_a s = 255 -> source_over s d = s.

(** An opaque image drawn on the resized canvas is read back as it is. *)
Lemma draw_opaque_image (img : Raster) :
  wf_raster img ->
  Forall (fun p => px_a p = 255) (pixels img) ->
  zip_with source_over (pixels img) (cleared img) = pixels img.
Proof.
  intros Hwf Hop. apply draw_opaque; [exact source_over_opaque|exact Hop|].
  unfold cleared. rewrite length_replicate. apply Hwf.
Qed.

(** An opaque pixel of the image is read back as it is, whatever the
    other pixels are. *)
Lemma drawn_opaque_pixel (img : Raster) (i : nat) (p : pixel) :
  wf_raster img ->
  pixels img !! i = Some p ->
  px_a p = 255 ->
  zip_with source_over (pixels img) (cleared img) !! i = Some p.
Proof.
  intros (_ & _ & Hlen) Hp Ha.
  rewrite lookup_zip_with, Hp. unfold cleared.
  rewrite lookup_replicate_2
    by (rewrite <- Hlen; eapply lookup_lt_Some; exact Hp).
  cbn. rewrite source_over_opaque by exact Ha. reflexivity.
Qed.

(** What black-white mode resolves with, at an opaque pixel. *)
Lemma black_white_pixel (img : Raster) (settings : StencilSettings)
    (i : nat) (p : pixel) :
  wf_raster img ->
  pixels img !! i = Some p ->
  px_a p = 255 ->
  pixels (bw_on source_over img settings (cleared img)) !! i =
  Some (bw_rule settings p).
Proof.
  intros Hwf Hp Ha. cbn [bw_on pixels].
  rewrite blackWhite_loop_rule, list_lookup_fmap.
  rewrite (drawn_opaque_pixel img i p) by assumption. reflexivity.
Qed.

(** C1 (amended): the loop of the solid stencil sets R = G = B of every
    pixel of the image data to 255 when the contrast-adjusted luminance,
    taken before any clamping, is strictly greater than the threshold and
    to 0 otherwise, with 0 and 255 swapped when invert is set; when
    lineThickness <= 1 every opaque pixel of the image leaves with that
    value; for a fully opaque image the output is the raster of these
    values, dilated when lineThickness > 1; and for any image the RGB
    channels of the output hold only 0 and 255.  The image has at least
    one pixel. *)
Theorem solid_stencil_thresholds_raw_contrast
    (img : Raster) (settings : StencilSettings) (cv : Canvas) :
  wf_raster img ->
  has_pixels img ->
  mode settings = "solid-stencil"%string ->
  (forall data,
     applyStencilEffect data settings = solid_rule_raw settings <$> data) /\
  exists out,
    fst (processImage source_over (Some img) settings cv) =
      Resolved (MkResult (Some out) None None) /\
    width out = width img /\ height out = height img /\
    Forall binary_pixel (pixels out) /\
    (lineThickness settings <= 1 ->
     forall (i : nat) p,
       pixels img !! i = Some p -> px_a p = 255 ->
       pixels out !! i = Some (solid_rule_raw settings p)) /\
    (Forall (fun p => px_a p = 255) (pixels img) ->
     pixels out =
       thicken (lineThickness settings) (width img) (height img)
         (solid_rule_raw settings <$> pixels img)).
Proof.
  intros Hwf _ Hm. split; [intros data; apply applyStencilEffect_rule|].
  rewrite processImage_solid by exact Hm.
  eexists. split; [reflexivity|]. cbn [solid_on width height pixels].
  split; [reflexivity|]. split; [reflexivity|]. split; [|split].
  - apply thicken_Forall; [apply paint_black_binary|].
    rewrite applyStencilEffect_rule.
    apply Forall_fmap, Forall_forall. intros p _.
    apply gray_level_binary.
  - intros Ht i p Hp Ha. unfold thicken.
    destruct (Z.gtb_spec (lineThickness settings) 1); [lia|].
    rewrite applyStencilEffect_rule, list_lookup_fmap.
    rewrite (drawn_opaque_pixel img i p) by assumption. reflexivity.
  - intros Hop. rewrite draw_opaque_image by assumption.
    rewrite applyStencilEffect_rule. reflexivity.
Qed.

(** C2 (amended): the line sketch is computed for every raster with at
    least one pixel, whatever its size; the image data is converted to
    BT.601 grayscale bytes; at an interior pixel gx and gy are the sums
    weighted by the kernels Gx and Gy, the magnitude sqrt(gx^2 + gy^2) is
    clamped to [0, 255] and stored as a byte, and the pixel is written
    black when that byte is strictly greater than the threshold, white
    otherwise, the two swapped when invert is set; for a fully opaque
    image and lineThickness <= 1 the interior pixels of the output are
    the pixels so written. *)
Theorem line_sketch_thresholds_stored_magnitude
    (img : Raster) (settings : StencilSettings) (cv : Canvas) :
  wf_raster img ->
  has_pixels img ->
  mode settings = "line-sketch"%string ->
  (forall data w h x y,
     Z.of_nat (length data) = w * h ->
     interior w h x y = true ->
     exists q,
       zget (threshold_loop
               (applySobelEdgeDetection (grayscale_loop data) w h) settings)
            (y * w + x) = Some q /\
       px_g q = px_r q /\ px_b q = px_r q /\
       px_r q = edge_rule_byte settings (gray_bytes data) w x y) /\
  exists out,
    fst (processImage source_over (Some img) settings cv) =
      Resolved (MkResult None None (Some out)) /\
    width out = width img /\ height out = height img /\
    (Forall (fun p => px_a p = 255) (pixels img) ->
     lineThickness settings <= 1 ->
     forall x y, interior (width img) (height img) x y = true ->
       exists q,
         zget (pixels out) (y * width img + x) = Some q /\
         px_g q = px_r q /\ px_b q = px_r q /\ px_a q = 255 /\
         px_r q =
           edge_rule_byte settings (gray_bytes (pixels img)) (width img) x y).
Proof.
  intros Hwf _ Hm. split.
  { intros data w h x y Hlen Hi.
    pose proof (interior_in_bounds w h x y Hi) as [Hx Hy].
    rewrite sketch_staged_at by assumption. rewrite Hi.
    eexists. split; [reflexivity|].
    unfold gray_level, sobel_pixel. cbn [px_r px_g px_b].
    split; [reflexivity|]. split; [reflexivity|].
    rewrite <- edge_rule_stored_byte. reflexivity. }
  rewrite processImage_sketch by exact Hm.
  eexists. split; [reflexivity|]. cbn [sketch_on width height pixels].
  split; [reflexivity|]. split; [reflexivity|].
  intros Hop Ht x y Hi.
  rewrite draw_opaque_image by assumption.
  unfold thicken. destruct (Z.gtb_spec (lineThickness settings) 1); [lia|].
  rewrite sketch_interior_pixel
    by (try assumption; apply wf_length, Hwf).
  eexists. split; [reflexivity|]. cbv zeta. cbn [px_r px_g px_b px_a].
  split; [reflexivity|]. split; [reflexivity|]. split; [reflexivity|].
  apply edge_rule_stored_byte.
Qed.

(** C7 (amended): the loop of the black and white transform sets
    R = G = B of every pixel of the image data to the byte stored from
    C, or from 255 - C when invert is set, where
    C = clamp(((L/255 - 0.5) * contrast + 0.5) * 255, 0, 255) and
    L = 0.299 R + 0.587 G + 0.114 B, and keeps alpha; every opaque pixel
    of the image leaves with that value, computed from its own R, G and
    B; neither the threshold nor the line thickness enters the result.
    The image has at least one pixel. *)
Theorem black_white_is_contrast_adjusted_luminance
    (img : Raster) (settings : StencilSettings) (cv : Canvas) :
  wf_raster img ->
  has_pixels img ->
  mode settings = "black-white"%string ->
  (forall data, blackWhite_loop data settings = bw_rule settings <$> data) /\
  exists out sketch,
    fst (processImage source_over (Some img) settings cv) =
      Resolved (MkResult None (Some out) (Some sketch)) /\
    width out = width img /\ height out = height img /\
    length (pixels out) = length (pixels img) /\
    forall (i : nat) p,
      pixels img !! i = Some p -> px_a p = 255 ->
      pixels out !! i = Some (bw_rule settings p).
Proof.
  intros Hwf _ Hm. split; [intros data; apply blackWhite_loop_rule|].
  rewrite processImage_bw by exact Hm. cbv zeta. cbn [fst].
  eexists. eexists. split; [reflexivity|].
  split; [reflexivity|]. split; [reflexivity|]. split.
  - cbn [bw_on pixels].
    rewrite blackWhite_loop_rule, length_fmap, length_zip_with.
    unfold cleared. rewrite length_replicate.
    destruct Hwf as (_ & _ & ->). lia.
  - intros i p Hp Ha. apply black_white_pixel; assumption.
Qed.

(** C8 (amended): the inversion map x -> 255 - x is an involution on
    channel values and on pixels; with invert set the black and white
    transform stores 255 - C; at every opaque pixel where C is a number
    and neither C nor the computed 255 - C is exactly halfway between
    two integers, the output with invert set is the inversion of the
    output without it; at an opaque pixel where C is exactly halfway
    between two integers the two differ by one. *)
Theorem black_white_inversion_away_from_halves
    (img : Raster) (settings : StencilSettings) (cv : Canvas) :
  wf_raster img ->
  has_pixels img ->
  mode settings = "black-white"%string ->
  (forall x, invert_byte (invert_byte x) = x) /\
  (forall q, invert_pixel (invert_pixel q) = q) /\
  exists off on sketch_off sketch_on,
    fst (processImage source_over (Some img) (with_invert false settings) cv) =
      Resolved (MkResult None (Some off) (Some sketch_off)) /\
    fst (processImage source_over (Some img) (with_invert true settings) cv) =
      Resolved (MkResult None (Some on) (Some sketch_on)) /\
    forall (i : nat) p,
      pixels img !! i = Some p -> px_a p = 255 ->
      let c := contrast_clamped (bt601 p) (contrast settings) in
      pixels on !! i =
        Some (gray_level (JS.toUint8Clamp (JS.sub JS.lit_255 c)) p) /\
      (c <> JS.nan ->
       halfway c = false ->
       halfway (JS.sub JS.lit_255 c) = false ->
       pixels on !! i = invert_pixel <$> pixels off !! i) /\
      (forall k,
         0 <= k <= 254 ->
         c = JS.add (JS.of_int k) JS.lit_0_5 ->
         exists q_on q_off,
           pixels on !! i = Some q_on /\ pixels off !! i = Some q_off /\
           Z.abs (px_r q_on - invert_byte (px_r q_off)) = 1).
Proof.
  intros Hwf _ Hm.
  split; [intros x; unfold invert_byte; lia|].
  split; [intros [r g b a]; unfold invert_pixel, invert_byte; simpl;
          f_equal; lia|].
  rewrite !processImage_bw by exact Hm. cbv zeta. cbn [fst].
  do 4 eexists.
  split; [reflexivity|]. split; [reflexivity|].
  intros i p Hp Ha. cbv zeta.
  rewrite !(black_white_pixel img _ i p) by assumption.
  unfold bw_rule, with_invert. cbn [invert contrast].
  split; [reflexivity|]. split.
  - intros Hnan Hc Hd.
    cbn [fmap option_fmap option_map]. apply (f_equal Some).
    unfold invert_pixel, gray_level. cbn [px_r px_g px_b px_a].
    rewrite store_inverted; try assumption; [reflexivity|].
    destruct (Math_max_zero_not_negative
                (JS.Math_min JS.lit_255
                   (contrast_raw (bt601 p) (contrast settings))))
      as [Hn|Hn]; [contradiction|exact Hn].
  - intros k Hk Hc.
    eexists. eexists. split; [reflexivity|]. split; [reflexivity|].
    unfold gray_level. cbn [px_r].
    rewrite Hc. apply store_inverted_tie. exact Hk.
Qed.

(** C10: for a fully opaque input raster, the lineSketch produced in
    black-white mode, after the black and white transform has used the
    shared canvas, is the lineSketch produced in line-sketch mode with
    the same settings. *)
Theorem sketch_same_in_both_modes
    (img : Raster) (settings : StencilSettings) (cv cv' : Canvas) :
  wf_raster img ->
  Forall (fun p => px_a p = 255) (pixels img) ->
  exists b l,
    fst (processImage source_over (Some img)
           (with_mode "black-white" settings) cv) =
      Resolved (MkResult None (Some b) (Some l)) /\
    fst (processImage source_over (Some img)
           (with_mode "line-sketch" settings) cv') =
      Resolved (MkResult None None (Some l)).
Proof.
  intros Hwf Hop.
  rewrite processImage_bw, processImage_sketch by reflexivity.
  eexists. eexists. cbv zeta. cbn [fst]. split; [reflexivity|].
  do 3 f_equal. unfold sketch_on.
  assert (Hlen : length (pixels img) = length (cleared img)).
  { unfold cleared. rewrite length_replicate. apply Hwf. }
  rewrite !(draw_opaque source_over (pixels img)); try assumption.
  - reflexivity.
  - cbn [bw_on pixels]. rewrite blackWhite_loop_map, length_fmap.
    rewrite draw_opaque by assumption. reflexivity.
Qed.

End Claims.

Section AlphaOfTheSketch.

Variable source_over : pixel -> pixel -> pixel.

(** C4 (the code departs from the claim): in line-sketch mode every
    pixel on the border of the raster, and every pixel of a raster
    smaller than 3x3, leaves with alpha 0 whatever alpha it came with;
    the Sobel stage copies alpha for interior pixels only. *)
Theorem line_sketch_clears_border_alpha
    (img : Raster) (settings : StencilSettings) (cv : Canvas) (x y : Z) :
  wf_raster img ->
  mode settings = "line-sketch"%string ->
  0 <= x < width img -> 0 <= y < height img ->
  interior (width img) (height img) x y = false ->
  exists out,
    fst (processImage source_over (Some img) settings cv) =
      Resolved (MkResult None None (Some out)) /\
    px_a <$> zget (pixels out) (y * width img + x) = Some 0.
Proof.
  intros Hwf Hm Hx Hy Hb.
  rewrite processImage_sketch by exact Hm.
  eexists. split; [reflexivity|]. cbn [sketch_on pixels].
  rewrite thicken_alpha, sketch_staged_at; try assumption.
  - rewrite Hb. reflexivity.
  - rewrite length_zip_with. unfold cleared. rewrite length_replicate.
    destruct Hwf as (Hw & Hh & Hlen). rewrite Hlen. nia.
Qed.

(** The other transforms, and the interior of the line sketch, keep the
    alpha bytes of the image. *)
Lemma painted_cells_alphas (l l' : list pixel) :
  Forall2 (fun p q => q = p \/ q = paint_black p) l l' ->
  px_a <$> l' = px_a <$> l.
Proof.
  intros H2.
  induction H2 as [|p q l l' Hpq _ IH]; [reflexivity|].
  rewrite !fmap_cons, IH. f_equal. destruct Hpq as [->| ->]; reflexivity.
Qed.




End AlphaOfTheSketch.

(** ** The claims at sample inputs *)

(** C1, as stated, fails: with threshold 255 and contrast 1.5 a white
    pixel has C = 255 after clamping, which is not greater than 255, so
    the stated rule paints it black; the code compares 318.75 with 255 and
    paints it white. *)
Lemma solid_stencil_clamped_rule_counterexample :
  fst (processImage ref_source_over (Some white_1x1) bright_settings initial_canvas) =
    Resolved (MkResult (Some (MkRaster 1 1 [Pixel 255 255 255 255])) None None) /\
  solid_rule_clamped bright_settings <$> pixels white_1x1 = [Pixel 0 0 0 255] /\
  ~ (exists out,
       fst (processImage ref_source_over (Some white_1x1) bright_settings
              initial_canvas) =
         Resolved (MkResult (Some out) None None) /\
       pixels out = solid_rule_clamped bright_settings <$> pixels white_1x1).
Proof.
  assert (H1 : fst (processImage ref_source_over (Some white_1x1) bright_settings
                      initial_canvas) =
               Resolved (MkResult (Some (MkRaster 1 1 [Pixel 255 255 255 255]))
                           None None))
    by (vm_compute; reflexivity).
  assert (H2 : solid_rule_clamped bright_settings <$> pixels white_1x1 =
               [Pixel 0 0 0 255])
    by (vm_compute; reflexivity).
  split; [exact H1|]. split; [exact H2|].
  intros (out & Hout & Hp). rewrite H1 in Hout. rewrite H2 in Hp.
  injection Hout as <-. discriminate Hp.
Qed.

Lemma solid_stencil_thresholds_raw_contrast_witness :
  (forall data,
     applyStencilEffect data bright_settings =
     solid_rule_raw bright_settings <$> data) /\
  exists out,
    fst (processImage premultiplied_over (Some white_1x1) bright_settings
           initial_canvas) =
      Resolved (MkResult (Some out) None None) /\
    width out = width white_1x1 /\ height out = height white_1x1 /\
    Forall binary_pixel (pixels out) /\
    (lineThickness bright_settings <= 1 ->
     forall (i : nat) p,
       pixels white_1x1 !! i = Some p -> px_a p = 255 ->
       pixels out !! i = Some (solid_rule_raw bright_settings p)) /\
    (Forall (fun p => px_a p = 255) (pixels white_1x1) ->
     pixels out =
       thicken (lineThickness bright_settings) (width white_1x1)
         (height white_1x1)
         (solid_rule_raw bright_settings <$> pixels white_1x1)).
Proof.
  apply (solid_stencil_thresholds_raw_contrast premultiplied_over
           premultiplied_over_opaque white_1x1 bright_settings initial_canvas).
  - unfold wf_raster. simpl. repeat split; lia.
  - unfold has_pixels. simpl. lia.
  - reflexivity.
Defined.

(** C2, as stated, fails: at the centre of [corner_3x3] the Sobel sums
    are gx = gy = 1 and M = sqrt 2, which is greater than the threshold 1,
    so the stated rule draws the pixel black; the code stores M as the
    byte 1, which is not greater than 1, and draws it white. *)
Lemma line_sketch_magnitude_rule_counterexample :
  exists out,
    fst (processImage ref_source_over (Some corner_3x3) faint_edge_settings
           initial_canvas) =
      Resolved (MkResult None None (Some out)) /\
    interior 3 3 1 1 = true /\
    px_r <$> zget (pixels out) (1 * 3 + 1) = Some 255 /\
    edge_rule_magnitude faint_edge_settings (gray_bytes (pixels corner_3x3))
      3 1 1 = 0 /\
    px_r <$> zget (pixels out) (1 * 3 + 1) <>
      Some (edge_rule_magnitude faint_edge_settings
              (gray_bytes (pixels corner_3x3)) 3 1 1).
Proof.
  eexists. split; [vm_compute; reflexivity|].
  split; [reflexivity|].
  split; [vm_compute; reflexivity|].
  split; [vm_compute; reflexivity|].
  vm_compute. discriminate.
Qed.

Lemma line_sketch_thresholds_stored_magnitude_witness :
  (forall data w h x y,
     Z.of_nat (length data) = w * h ->
     interior w h x y = true ->
     exists q,
       zget (threshold_loop
               (applySobelEdgeDetection (grayscale_loop data) w h)
               faint_edge_settings)
            (y * w + x) = Some q /\
       px_g q = px_r q /\ px_b q = px_r q /\
       px_r q = edge_rule_byte faint_edge_settings (gray_bytes data) w x y) /\
  exists out,
    fst (processImage premultiplied_over (Some corner_3x3) faint_edge_settings
           initial_canvas) =
      Resolved (MkResult None None (Some out)) /\
    width out = width corner_3x3 /\ height out = height corner_3x3 /\
    (Forall (fun p => px_a p = 255) (pixels corner_3x3) ->
     lineThickness faint_edge_settings <= 1 ->
     forall x y, interior (width corner_3x3) (height corner_3x3) x y = true ->
       exists q,
         zget (pixels out) (y * width corner_3x3 + x) = Some q /\
         px_g q = px_r q /\ px_b q = px_r q /\ px_a q = 255 /\
         px_r q =
           edge_rule_byte faint_edge_settings (gray_bytes (pixels corner_3x3))
             (width corner_3x3) x y).
Proof.
  apply (line_sketch_thresholds_stored_magnitude premultiplied_over
           premultiplied_over_opaque corner_3x3 faint_edge_settings
           initial_canvas).
  - unfold wf_raster. simpl. repeat split; lia.
  - unfold has_pixels. simpl. lia.
  - reflexivity.
Defined.

Lemma dilation_single_pass_from_snapshot_witness :
  snd (applyLineThickness 1 (single_black 20 20 0 19)) = single_black 20 20 0 19 /\
  snd (applyLineThickness 3 (single_black 20 20 0 19)) = black_square 20 20 0 19 2.
Proof.
  split.
  - exact (proj1 (dilation_single_pass_from_snapshot 1 (single_black 20 20 0 19))
             ltac:(lia)).
  - exact (proj2 (proj2 (dilation_single_pass_from_snapshot 3 initial_canvas))
             0 19 ltac:(lia) ltac:(lia)).
Defined.

Lemma line_sketch_clears_border_alpha_witness :
  exists out,
    fst (processImage ref_source_over (Some white_1x1)
           (default_settings "line-sketch") initial_canvas) =
      Resolved (MkResult None None (Some out)) /\
    px_a <$> zget (pixels out) (0 * width white_1x1 + 0) = Some 0.
Proof.
  apply (line_sketch_clears_border_alpha ref_source_over white_1x1
           (default_settings "line-sketch") initial_canvas 0 0).
  - unfold wf_raster. simpl. repeat split; lia.
  - reflexivity.
  - simpl. lia.
  - simpl. lia.
  - reflexivity.
Defined.

(** C5, as stated, fails: with the mode 'sepia' the promise resolves, with
    an empty result, and is not rejected. *)
Lemma unsupported_mode_counterexample :
  fst (processImage ref_source_over (Some white_1x1) (default_settings "sepia")
         initial_canvas) = Resolved empty_result /\
  ~ (exists msg,
       fst (processImage ref_source_over (Some white_1x1)
              (default_settings "sepia") initial_canvas) = Rejected msg).
Proof.
  assert (H : fst (processImage ref_source_over (Some white_1x1)
                     (default_settings "sepia") initial_canvas) =
              Resolved empty_result)
    by (vm_compute; reflexivity).
  split; [exact H|]. intros (msg & Hmsg). rewrite H in Hmsg. discriminate.
Qed.

Lemma unrecognised_mode_resolves_empty_witness :
  fst (processImage ref_source_over (Some white_1x1) (default_settings "sepia")
         initial_canvas) = Resolved empty_result.
Proof.
  apply (unrecognised_mode_resolves_empty ref_source_over white_1x1
           (default_settings "sepia") initial_canvas);
    simpl; discriminate.
Defined.

Lemma dispatcher_fills_fields_by_mode_witness :
  fst (processImage ref_source_over (Some white_1x1)
         (default_settings "line-sketch") initial_canvas) =
    Resolved (MkResult None None
      (Some (fst (createLineSketch ref_source_over white_1x1
                    (default_settings "line-sketch")
                    (MkRaster (width white_1x1) (height white_1x1)
                       (cleared white_1x1)))))).
Proof.
  apply (dispatcher_fills_fields_by_mode ref_source_over white_1x1
           (default_settings "line-sketch") initial_canvas).
  reflexivity.
Defined.

(** C7, as stated, fails: a browser reads the pixel 18, 18, 18 with
    alpha 3 back from its canvas as 0, 0, 0, so at contrast 1 the output
    is 0 where C, computed from the pixel of the image, is 18. *)
Lemma black_white_premultiplied_counterexample :
  exists out sketch,
    fst (processImage premultiplied_over (Some translucent_1x1)
           plain_tone_settings initial_canvas) =
      Resolved (MkResult None (Some out) (Some sketch)) /\
    pixels out = [Pixel 0 0 0 3] /\
    bw_rule plain_tone_settings <$> pixels translucent_1x1 = [Pixel 18 18 18 3] /\
    pixels out <> bw_rule plain_tone_settings <$> pixels translucent_1x1.
Proof.
  eexists. eexists.
  split; [vm_compute; reflexivity|].
  split; [reflexivity|].
  split; [vm_compute; reflexivity|].
  vm_compute. discriminate.
Qed.

Lemma black_white_is_contrast_adjusted_luminance_witness :
  (forall data,
     blackWhite_loop data tone_settings = bw_rule tone_settings <$> data) /\
  exists out sketch,
    fst (processImage premultiplied_over (Some tie_1x1) tone_settings
           initial_canvas) =
      Resolved (MkResult None (Some out) (Some sketch)) /\
    width out = width tie_1x1 /\ height out = height tie_1x1 /\
    length (pixels out) = length (pixels tie_1x1) /\
    forall (i : nat) p,
      pixels tie_1x1 !! i = Some p -> px_a p = 255 ->
      pixels out !! i = Some (bw_rule tone_settings p).
Proof.
  apply (black_white_is_contrast_adjusted_luminance premultiplied_over
           premultiplied_over_opaque tie_1x1 tone_settings initial_canvas).
  - unfold wf_raster. simpl. repeat split; lia.
  - unfold has_pixels. simpl. lia.
  - reflexivity.
Defined.

Example tie_pixel_contrast :
  contrast_clamped (bt601 (Pixel 0 66 147 255)) (contrast tone_settings) =
  JS.add (JS.of_int 19) JS.lit_0_5.
Proof. vm_compute. reflexivity. Qed.

(** C8, as stated, fails: the pixel of [tie_1x1] has C = 19.5, stored as
    20 without invert; with invert the code stores 255 - 19.5 = 235.5 as
    236, which is not 255 - 20. *)
Lemma black_white_inversion_counterexample :
  exists off on sketch_off sketch_on,
    fst (processImage ref_source_over (Some tie_1x1)
           (with_invert false tone_settings) initial_canvas) =
      Resolved (MkResult None (Some off) (Some sketch_off)) /\
    fst (processImage ref_source_over (Some tie_1x1)
           (with_invert true tone_settings) initial_canvas) =
      Resolved (MkResult None (Some on) (Some sketch_on)) /\
    pixels off = [Pixel 20 20 20 255] /\
    pixels on = [Pixel 236 236 236 255] /\
    pixels on <> invert_pixel <$> pixels off.
Proof.
  do 4 eexists.
  split; [vm_compute; reflexivity|].
  split; [vm_compute; reflexivity|].
  split; [reflexivity|]. split; [reflexivity|].
  vm_compute. discriminate.
Qed.

(** The second exclusion is needed: for RGB (1, 147, 8) at contrast 1,
    C is just above 87.5 and is stored as 88, while 255 - C rounds to
    167.5 exactly and is stored as 168. *)
Example near_tie_inversion :
  let c := contrast_clamped (bt601 (Pixel 1 147 8 255)) (JS.of_int 1) in
  halfway c = false /\ halfway (JS.sub JS.lit_255 c) = true /\
  blackWhite_loop (pixels near_tie_1x1) (with_invert false plain_tone_settings) =
    [Pixel 88 88 88 255] /\
  blackWhite_loop (pixels near_tie_1x1) (with_invert true plain_tone_settings) =
    [Pixel 168 168 168 255].
Proof. vm_compute. repeat split; reflexivity. Qed.

Lemma black_white_inversion_away_from_halves_witness :
  exists off on sketch_off sketch_on,
    fst (processImage premultiplied_over (Some mid_tone_1x1)
           (with_invert false tone_settings) initial_canvas) =
      Resolved (MkResult None (Some off) (Some sketch_off)) /\
    fst (processImage premultiplied_over (Some mid_tone_1x1)
           (with_invert true tone_settings) initial_canvas) =
      Resolved (MkResult None (Some on) (Some sketch_on)) /\
    pixels on !! 0%nat = invert_pixel <$> pixels off !! 0%nat.
Proof.
  destruct (black_white_inversion_away_from_halves premultiplied_over
              premultiplied_over_opaque mid_tone_1x1 tone_settings
              initial_canvas)
    as (_ & _ & off & on & soff & son & Hoff & Hon & Hpx).
  - unfold wf_raster. simpl. repeat split; lia.
  - unfold has_pixels. simpl. lia.
  - reflexivity.
  - exists off, on, soff, son.
    split; [exact Hoff|]. split; [exact Hon|].
    apply (Hpx 0%nat (Pixel 120 130 90 255)).
    + reflexivity.
    + reflexivity.
    + vm_compute. discriminate.
    + vm_compute. reflexivity.
    + vm_compute. reflexivity.
Defined.

Lemma output_channels_are_bytes_witness :
  Forall rgb_bytes [Pixel 255 255 255 0] /\
  Forall valid_pixel [Pixel 255 255 255 0].
Proof.
  destruct (output_channels_are_bytes ref_source_over (Some white_1x1)
              (default_settings "black-white") initial_canvas
              (MkResult None (Some (MkRaster 1 1 [Pixel 255 255 255 255]))
                 (Some (MkRaster 1 1 [Pixel 255 255 255 0])))
              (MkRaster 1 1 [Pixel 255 255 255 0]))
    as [Hrgb Hall].
  - vm_compute. reflexivity.
  - right. right. reflexivity.
  - split; [exact Hrgb|]. apply Hall.
    + exact ref_source_over_valid.
    + intros img [= <-]. repeat constructor; simpl; lia.
Defined.

Lemma sketch_same_in_both_modes_witness :
  exists b l,
    fst (processImage ref_source_over (Some corner_3x3)
           (with_mode "black-white" (default_settings "solid-stencil"))
           initial_canvas) =
      Resolved (MkResult None (Some b) (Some l)) /\
    fst (processImage ref_source_over (Some corner_3x3)
           (with_mode "line-sketch" (default_settings "solid-stencil"))
           initial_canvas) =
      Resolved (MkResult None None (Some l)).
Proof.
  apply (sketch_same_in_both_modes ref_source_over ref_source_over_opaque
           corner_3x3 (default_settings "solid-stencil")
           initial_canvas initial_canvas).
  - unfold wf_raster. simpl. repeat split; lia.
  - repeat constructor.
Defined.

(** ** Beyond the claims: the dispatcher *)

Section Dispatcher.

Variable source_over : pixel -> pixel -> pixel.

(** One processor serves every run of the application.  What a run on a
    decoded image resolves with, and what it leaves on the canvas, do not
    depend on what earlier runs left there. *)
Theorem processImage_forgets_the_canvas
    (img : Raster) (settings : StencilSettings) (cv cv' : Canvas) :
  processImage source_over (Some img) settings cv =
  processImage source_over (Some img) settings cv'.
Proof.
  destruct (String.eqb_spec (mode settings) "solid-stencil") as [Hs|Hs];
    [rewrite !processImage_solid by exact Hs; reflexivity|].
  destruct (String.eqb_spec (mode settings) "black-white") as [Hb|Hb];
    [rewrite !processImage_bw by exact Hb; reflexivity|].
  destruct (String.eqb_spec (mode settings) "line-sketch") as [Hl|Hl];
    [rewrite !processImage_sketch by exact Hl; reflexivity|].
  rewrite !processImage_other by assumption. reflexivity.
Qed.

Lemma length_drawn (img : Raster) (cvp : list pixel) :
  length cvp = length (pixels img) ->
  length (zip_with source_over (pixels img) cvp) = length (pixels img).
Proof. intros H. rewrite length_zip_with. lia. Qed.

Lemma length_cleared (img : Raster) :
  wf_raster img -> length (cleared img) = length (pixels img).
Proof.
  intros (_ & _ & Hlen). unfold cleared. rewrite length_replicate, Hlen.
  reflexivity.
Qed.

Lemma length_solid_on (img : Raster) (settings : StencilSettings) (cvp : list pixel) :
  length cvp = length (pixels img) ->
  length (pixels (solid_on source_over img settings cvp)) = length (pixels img).
Proof.
  intros H. cbn [solid_on pixels].
  rewrite length_thicken, applyStencilEffect_map, length_fmap.
  apply length_drawn, H.
Qed.

Lemma length_bw_on (img : Raster) (settings : StencilSettings) (cvp : list pixel) :
  length cvp = length (pixels img) ->
  length (pixels (bw_on source_over img settings cvp)) = length (pixels img).
Proof.
  intros H. cbn [bw_on pixels].
  rewrite blackWhite_loop_map, length_fmap.
  apply length_drawn, H.
Qed.

Lemma length_sketch_on (img : Raster) (settings : StencilSettings) (cvp : list pixel) :
  length cvp = length (pixels img) ->
  length (pixels (sketch_on source_over img settings cvp)) = length (pixels img).
Proof.
  intros H. cbn [sketch_on pixels].
  rewrite length_thicken, threshold_loop_map, length_fmap.
  rewrite length_applySobelEdgeDetection, grayscale_loop_map, length_fmap.
  apply length_drawn, H.
Qed.

(** Every raster of a result has the width, the height and the number of
    pixels of the image, for any compositor. *)
Theorem outputs_have_the_shape_of_the_image
    (img : Raster) (settings : StencilSettings) (cv : Canvas)
    (r : ProcessingResult) (out : Raster) :
  wf_raster img ->
  fst (processImage source_over (Some img) settings cv) = Resolved r ->
  solidStencil r = Some out \/ blackWhite r = Some out \/ lineSketch r = Some out ->
  width out = width img /\ height out = height img /\ wf_raster out /\
  length (pixels out) = length (pixels img).
Proof.
  intros Hwf Hrun Hout.
  assert (Hshape : forall o : Raster,
            width o = width img -> height o = height img ->
            length (pixels o) = length (pixels img) ->
            width o = width img /\ height o = height img /\ wf_raster o /\
            length (pixels o) = length (pixels img)).
  { intros o Hw Hh Hl. repeat split; try assumption.
    - rewrite Hw. apply Hwf.
    - rewrite Hh. apply Hwf.
    - rewrite Hl, Hw, Hh. apply Hwf. }
  pose proof (length_cleared img Hwf) as Hc.
  destruct (String.eqb_spec (mode settings) "solid-stencil") as [Hs|Hs].
  { rewrite processImage_solid in Hrun by exact Hs. cbn [fst] in Hrun.
    injection Hrun as <-. cbn [solidStencil blackWhite lineSketch] in Hout.
    destruct Hout as [[= <-]|[[=]|[=]]].
    apply Hshape; [reflexivity|reflexivity|]. apply length_solid_on, Hc. }
  destruct (String.eqb_spec (mode settings) "black-white") as [Hb|Hb].
  { rewrite processImage_bw in Hrun by exact Hb. cbv zeta in Hrun.
    cbn [fst] in Hrun. injection Hrun as <-.
    cbn [solidStencil blackWhite lineSketch] in Hout.
    destruct Hout as [[=]|[[= <-]|[= <-]]];
      (apply Hshape; [reflexivity|reflexivity|]).
    - apply length_bw_on, Hc.
    - apply length_sketch_on, length_bw_on, Hc. }
  destruct (String.eqb_spec (mode settings) "line-sketch") as [Hl|Hl].
  { rewrite processImage_sketch in Hrun by exact Hl. cbn [fst] in Hrun.
    injection Hrun as <-. cbn [solidStencil blackWhite lineSketch] in Hout.
    destruct Hout as [[=]|[[=]|[= <-]]].
    apply Hshape; [reflexivity|reflexivity|]. apply length_sketch_on, Hc. }
  rewrite processImage_other in Hrun by assumption. cbn [fst] in Hrun.
  injection Hrun as <-. cbn in Hout.
  destruct Hout as [[=]|[[=]|[=]]].
Qed.

Lemma sketch_on_opaque (img : Raster) (settings : StencilSettings) (cvp : list pixel) :
  (forall s d, px_a s = 255 -> source_over s d = s) ->
  Forall (fun p => px_a p = 255) (pixels img) ->
  length cvp = length (pixels img) ->
  sketch_on source_over img settings cvp =
  sketch_on source_over img settings (pixels img).
Proof.
  intros Hop Hall Hlen. unfold sketch_on.
  rewrite !(draw_opaque source_over (pixels img)) by (try assumption; auto).
  reflexivity.
Qed.

(** The line sketch never reads the contrast.  In line-sketch mode
    changing the contrast changes nothing; in black-white mode, where the
    sketch is drawn over the black and white raster, it changes no line
    sketch of an opaque image. *)
Theorem line_sketch_ignores_contrast
    (img : Raster) (settings : StencilSettings) (c : JS.num) (cv : Canvas)
    (r r' : ProcessingResult) :
  fst (processImage source_over (Some img) settings cv) = Resolved r ->
  fst (processImage source_over (Some img) (with_contrast c settings) cv) =
    Resolved r' ->
  (mode settings = "line-sketch"%string -> r' = r) /\
  (mode settings = "black-white"%string ->
   (forall s d, px_a s = 255 -> source_over s d = s) ->
   wf_raster img ->
   Forall (fun p => px_a p = 255) (pixels img) ->
   lineSketch r' = lineSketch r).
Proof.
  intros Hr Hr'. split; intros Hm.
  - rewrite !processImage_sketch in * by exact Hm. cbn [fst] in *.
    injection Hr as <-. injection Hr' as <-. reflexivity.
  - intros Hop Hwf Hall.
    rewrite !processImage_bw in * by exact Hm. cbv zeta in *. cbn [fst] in *.
    injection Hr as <-. injection Hr' as <-. cbn [lineSketch].
    apply (f_equal Some).
    transitivity (sketch_on source_over img settings (pixels img)).
    + rewrite sketch_on_opaque
        by (try assumption; apply length_bw_on, length_cleared, Hwf).
      reflexivity.
    + symmetry. apply sketch_on_opaque; try assumption.
      apply length_bw_on, length_cleared, Hwf.
Qed.

End Dispatcher.

(** ** Beyond the claims: the dilation stage *)

Lemma applyLineThickness_cells (t : Z) (cv : Canvas) :
  Forall2 (fun p q => q = p \/ q = paint_black p)
    (pixels cv) (pixels (snd (applyLineThickness t cv))).
Proof.
  rewrite applyLineThickness_run. cbn [snd pixels].
  destruct (t <=? 1); [|apply dilate_cells].
  apply Forall2_same_length_lookup_2; [reflexivity|].
  intros i p q Hp Hq. left. congruence.
Qed.

(** Dilation only blackens: it keeps the size of the canvas and every
    alpha byte, every pixel keeps its value or has its R, G, B set to 0,
    and a pixel that was black stays black. *)
Theorem dilation_only_blackens (t : Z) (cv : Canvas) :
  let cv' := snd (applyLineThickness t cv) in
  width cv' = width cv /\ height cv' = height cv /\
  length (pixels cv') = length (pixels cv) /\
  px_a <$> pixels cv' = px_a <$> pixels cv /\
  Forall2 (fun p q => q = p \/ q = paint_black p) (pixels cv) (pixels cv') /\
  forall i, is_line (zget (pixels cv) i) = true ->
            is_line (zget (pixels cv') i) = true.
Proof.
  pose proof (applyLineThickness_cells t cv) as Hcells.
  cbv zeta.
  split; [rewrite applyLineThickness_run; reflexivity|].
  split; [rewrite applyLineThickness_run; reflexivity|].
  split; [symmetry; eapply Forall2_length; exact Hcells|].
  split; [apply painted_cells_alphas; exact Hcells|].
  split; [exact Hcells|].
  intros i. unfold zget. destruct (i <? 0); [discriminate|].
  generalize (Z.to_nat i) as n.
  induction Hcells as [|p q l l' Hpq _ IH]; intros [|n]; simpl; try discriminate.
  - destruct Hpq as [->| ->]; [tauto|]. intros _. reflexivity.
  - apply IH.
Qed.

Lemma dilate_no_line (t w h : Z) (orig : list pixel) :
  Forall (fun p => px_r p <> 0) orig -> dilate t w h orig = orig.
Proof.
  intros Hno. unfold dilate.
  apply (for_range_preserves (fun d => d = orig)); [reflexivity|].
  intros y acc _ ->.
  apply (for_range_preserves (fun d => d = orig)); [reflexivity|].
  intros x acc _ ->.
  unfold zget. destruct (_ <? 0); [reflexivity|].
  destruct (orig !! Z.to_nat (y * w + x)) as [p|] eqn:Hp; [|reflexivity].
  rewrite Forall_lookup in Hno. specialize (Hno _ _ Hp).
  cbn [is_line]. destruct (Z.eqb_spec (px_r p) 0); [contradiction|reflexivity].
Qed.

(** A canvas without a black pixel is returned as it is, whatever the
    thickness. *)
Theorem dilation_without_lines_is_identity (t : Z) (cv : Canvas) :
  Forall (fun p => px_r p <> 0) (pixels cv) ->
  snd (applyLineThickness t cv) = cv.
Proof.
  intros Hno. rewrite applyLineThickness_run. cbn [snd].
  destruct (t <=? 1); [destruct cv; reflexivity|].
  rewrite dilate_no_line by exact Hno. destruct cv; reflexivity.
Qed.

Lemma index_split (w h i : Z) :
  0 <= i < w * h -> 0 <= w -> 
  i = (i / w) * w + i mod w /\ 0 <= i mod w < w /\ 0 <= i / w < h.
Proof.
  intros Hi Hw.
  assert (0 < w) by (destruct (Z.eq_dec w 0) as [->|]; lia).
  pose proof (Z.div_mod i w ltac:(lia)).
  pose proof (Z.mod_pos_bound i w ltac:(lia)).
  assert (0 <= i / w) by (apply Z.div_pos; lia).
  assert (i / w < h) by (apply Z.div_lt_upper_bound; nia).
  lia.
Qed.

Lemma length_dilate (t w h : Z) (orig : list pixel) :
  length (dilate t w h orig) = length orig.
Proof. symmetry. eapply Forall2_length, dilate_cells. Qed.

Lemma dilate_line_iff (t w h : Z) (orig : list pixel) (x y : Z) :
  1 <= t ->
  Z.of_nat (length orig) = w * h ->
  0 <= x < w -> 0 <= y < h ->
  is_line (zget (dilate t w h orig) (y * w + x)) = true <->
  near_line t w h orig x y.
Proof.
  intros Ht Hlen Hx Hy.
  destruct (zget_in_range orig (y * w + x)) as [p Hp];
    [pose proof (index_range _ _ _ _ Hx Hy); lia|].
  destruct (dilate_spec t w h orig x y Hx Hy) as [[Hn E]|[Hn E]];
    rewrite E, Hp; cbn.
  - tauto.
  - split; [|intros; contradiction].
    intros Hr. exfalso. apply Hn.
    exists 0, 0. repeat split; try lia.
    rewrite !Z.add_0_r, Hp. exact Hr.
Qed.

Lemma near_line_mono (t t' w h : Z) (orig : list pixel) (x y : Z) :
  t <= t' -> near_line t w h orig x y -> near_line t' w h orig x y.
Proof.
  intros Ht (dx & dy & Hoff & Hb & Hl).
  exists dx, dy. repeat split; try lia. exact Hl.
Qed.

(** A thicker line covers a thinner one: a pixel that is black after
    dilation with thickness [t] is black after dilation with any larger
    thickness. *)
Theorem dilation_grows_with_thickness (t t' : Z) (cv : Canvas) (x y : Z) :
  1 < t -> t <= t' ->
  wf_raster cv ->
  0 <= x < width cv -> 0 <= y < height cv ->
  is_line (zget (pixels (snd (applyLineThickness t cv))) (y * width cv + x)) = true ->
  is_line (zget (pixels (snd (applyLineThickness t' cv))) (y * width cv + x)) = true.
Proof.
  intros Ht Htt Hwf Hx Hy.
  rewrite !applyLineThickness_run. cbn [snd pixels].
  destruct (Z.leb_spec t 1); [lia|]. destruct (Z.leb_spec t' 1); [lia|].
  rewrite !dilate_line_iff by (try assumption; try lia; apply wf_length, Hwf).
  apply near_line_mono. exact Htt.
Qed.

Lemma near_line_compose (t t' w h : Z) (orig : list pixel) (x y : Z) :
  1 <= t -> 1 <= t' ->
  Z.of_nat (length orig) = w * h ->
  0 <= x < w -> 0 <= y < h ->
  near_line t' w h (dilate t w h orig) x y <->
  near_line (t + t' - 1) w h orig x y.
Proof.
  intros Ht Ht' Hlen Hx Hy. split.
  - intros (dx' & dy' & Hoff' & Hb' & Hl').
    apply dilate_line_iff in Hl'; try assumption; try lia.
    destruct Hl' as (dx & dy & Hoff & Hb & Hl).
    exists (dx' + dx), (dy' + dy). repeat split; try lia.
    replace (y + (dy' + dy)) with (y + dy' + dy) by lia.
    replace (x + (dx' + dx)) with (x + dx' + dx) by lia. exact Hl.
  - intros (dx & dy & Hoff & Hb & Hl).
    set (dx' := Z.max (- (t' - 1)) (Z.min (t' - 1) dx)).
    set (dy' := Z.max (- (t' - 1)) (Z.min (t' - 1) dy)).
    exists dx', dy'. repeat split; try (subst dx' dy'; lia).
    apply dilate_line_iff; try assumption; try (subst dx' dy'; lia).
    exists (dx - dx'), (dy - dy'). repeat split; try (subst dx' dy'; lia).
    replace (y + dy' + (dy - dy')) with (y + dy) by lia.
    replace (x + dx' + (dx - dx')) with (x + dx) by lia. exact Hl.
Qed.

Lemma dilate_compose (t t' w h : Z) (orig : list pixel) :
  1 <= t -> 1 <= t' -> 0 <= w ->
  Z.of_nat (length orig) = w * h ->
  dilate t' w h (dilate t w h orig) = dilate (t + t' - 1) w h orig.
Proof.
  intros Ht Ht' Hw Hlen.
  apply zget_ext. intros i.
  destruct (Z_lt_ge_dec i 0) as [Hneg|Hpos];
    [unfold zget; destruct (Z.ltb_spec i 0); [reflexivity|lia]|].
  destruct (Z_lt_ge_dec i (w * h)) as [Hin|Hout].
  - destruct (index_split w h i) as (Hi & Hx & Hy); [lia|lia|].
    set (x := i mod w) in *. set (y := i / w) in *. rewrite Hi.
    assert (Hlen1 : Z.of_nat (length (dilate t w h orig)) = w * h)
      by (rewrite length_dilate; exact Hlen).
    pose proof (near_line_compose t t' w h orig x y Ht Ht' Hlen Hx Hy) as Hc.
    destruct (dilate_spec (t + t' - 1) w h orig x y Hx Hy) as [[H3 E3]|[H3 E3]];
      destruct (dilate_spec t' w h (dilate t w h orig) x y Hx Hy)
        as [[H2 E2]|[H2 E2]];
      try tauto;
      rewrite E3, E2;
      destruct (dilate_spec t w h orig x y Hx Hy) as [[H1 E1]|[H1 E1]];
      rewrite E1.
    + apply paint_black_idem.
    + reflexivity.
    + exfalso. apply H3. eapply near_line_mono; [|exact H1]. lia.
    + reflexivity.
  - unfold zget. destruct (Z.ltb_spec i 0); [reflexivity|].
    rewrite !lookup_ge_None_2; [reflexivity| |]; rewrite !length_dilate; lia.
Qed.

(** Two dilations in a row make one: thickness [t] followed by thickness
    [t'] is thickness [t + t' - 1]. *)
Theorem dilation_composes (t t' : Z) (cv : Canvas) :
  1 < t -> 1 < t' ->
  wf_raster cv ->
  snd (applyLineThickness t' (snd (applyLineThickness t cv))) =
  snd (applyLineThickness (t + t' - 1) cv).
Proof.
  intros Ht Ht' Hwf.
  rewrite !applyLineThickness_run. cbn [snd width height pixels].
  destruct (Z.leb_spec t 1); [lia|]. destruct (Z.leb_spec t' 1); [lia|].
  destruct (Z.leb_spec (t + t' - 1) 1); [lia|].
  f_equal. apply dilate_compose; try lia; [apply Hwf|apply wf_length, Hwf].
Qed.

(** ** Beyond the claims: the order of numbers and the thresholds *)

Lemma SFltb_rank (x y : JS.num) :
  SFltb x y = true <->
  match rank x, rank y with
  | Some a, Some b => key_lt a b
  | _, _ => False
  end.
Proof.
  unfold SFltb.
  destruct x as [[]|[]| |[] m e], y as [[]|[]| |[] m' e']; cbn;
    try (split; [discriminate|tauto]);
    try (split; [discriminate|lia]);
    try (split; [intros _; lia|reflexivity]).
  - destruct (Z.compare_spec e e'); cbn.
    + change (Pos.compare_cont Eq m m') with (Pos.compare m m').
      destruct (Pos.compare_spec m m'); cbn;
        (split; [try discriminate; intros _; lia|try reflexivity; lia]).
    + split; [discriminate|lia].
    + split; [intros _; lia|reflexivity].
  - destruct (Z.compare_spec e e'); cbn.
    + change (Pos.compare_cont Eq m m') with (Pos.compare m m').
      destruct (Pos.compare_spec m m'); cbn;
        (split; [try discriminate; intros _; lia|try reflexivity; lia]).
    + split; [intros _; lia|reflexivity].
    + split; [discriminate|lia].
Qed.

Lemma SFleb_rank (x y : JS.num) :
  SFleb x y = true <->
  match rank x, rank y with
  | Some a, Some b => key_lt a b \/ a = b
  | _, _ => False
  end.
Proof.
  unfold SFleb.
  destruct x as [[]|[]| |[] m e], y as [[]|[]| |[] m' e']; cbn;
    try (split; [discriminate|tauto]);
    try (split; [discriminate|intros [?|[=]]; lia]);
    try (split; [intros _; left; lia|reflexivity]);
    try (split; [intros _; right; reflexivity|reflexivity]).
  - destruct (Z.compare_spec e e'); cbn.
    + change (Pos.compare_cont Eq m m') with (Pos.compare m m').
      destruct (Pos.compare_spec m m'); cbn.
      * subst. split; [intros _; right; reflexivity|reflexivity].
      * split; [discriminate|intros [?|[=]]; lia].
      * split; [intros _; left; lia|reflexivity].
    + split; [discriminate|intros [?|[=]]; lia].
    + split; [intros _; left; lia|reflexivity].
  - destruct (Z.compare_spec e e'); cbn.
    + change (Pos.compare_cont Eq m m') with (Pos.compare m m').
      destruct (Pos.compare_spec m m'); cbn.
      * subst. split; [intros _; right; reflexivity|reflexivity].
      * split; [intros _; left; lia|reflexivity].
      * split; [discriminate|intros [?|[=]]; lia].
    + split; [intros _; left; lia|reflexivity].
    + split; [discriminate|intros [?|[=]]; lia].
Qed.

Lemma key_lt_le_trans (a b c : Z * Z * Z) :
  (key_lt a b \/ a = b) -> key_lt b c -> key_lt a c.
Proof.
  destruct a as [[a1 a2] a3], b as [[b1 b2] b3], c as [[c1 c2] c3].
  unfold key_lt. intros [H|[= -> -> ->]] H'; [lia|exact H'].
Qed.

(** A value above the higher of two thresholds is above the lower. *)
Lemma gt_above_lower (c lo hi : JS.num) :
  JS_le lo hi = true -> JS.gt c hi = true -> JS.gt c lo = true.
Proof.
  unfold JS_le, JS.gt. rewrite SFleb_rank, !SFltb_rank.
  destruct (rank lo), (rank hi), (rank c); try tauto.
  apply key_lt_le_trans.
Qed.

Lemma near_line_subset (t w h : Z) (d d' : list pixel) (x y : Z) :
  (forall i, is_line (zget d i) = true -> is_line (zget d' i) = true) ->
  near_line t w h d x y -> near_line t w h d' x y.
Proof.
  intros Hsub (dx & dy & Hoff & Hb & Hl).
  exists dx, dy. repeat split; try lia. apply Hsub, Hl.
Qed.

Lemma thicken_line_subset (t w h : Z) (d d' : list pixel) (x y : Z) :
  Z.of_nat (length d) = w * h -> Z.of_nat (length d') = w * h ->
  0 <= x < w -> 0 <= y < h ->
  (forall i, is_line (zget d i) = true -> is_line (zget d' i) = true) ->
  is_line (zget (thicken t w h d) (y * w + x)) = true ->
  is_line (zget (thicken t w h d') (y * w + x)) = true.
Proof.
  intros Hd Hd' Hx Hy Hsub. unfold thicken.
  destruct (Z.gtb_spec t 1); [|apply Hsub].
  rewrite !dilate_line_iff by (try assumption; lia).
  apply near_line_subset, Hsub.
Qed.

Lemma binarize_black (b inv : bool) : binarize b inv = 0 <-> xorb b inv = false.
Proof. destruct b, inv; cbn; split; intros; congruence. Qed.

Lemma is_line_fmap (f : pixel -> pixel) (d : list pixel) (i : Z) :
  is_line (zget (f <$> d) i) =
  match zget d i with Some p => px_r (f p) =? 0 | None => false end.
Proof. rewrite zget_fmap. destruct (zget d i); reflexivity. Qed.

Section Thresholds.

Variable source_over : pixel -> pixel -> pixel.

(** Raising the threshold of the solid stencil can only turn white pixels
    black, for any line thickness; with invert set it can only turn black
    pixels white. *)
Theorem raising_threshold_darkens_the_stencil
    (img : Raster) (settings : StencilSettings) (hi : JS.num) (cv : Canvas) :
  wf_raster img ->
  mode settings = "solid-stencil"%string ->
  JS_le (threshold settings) hi = true ->
  exists out out',
    fst (processImage source_over (Some img) settings cv) =
      Resolved (MkResult (Some out) None None) /\
    fst (processImage source_over (Some img) (with_threshold hi settings) cv) =
      Resolved (MkResult (Some out') None None) /\
    forall x y, 0 <= x < width img -> 0 <= y < height img ->
      let i := y * width img + x in
      (invert settings = false ->
       is_line (zget (pixels out) i) = true ->
       is_line (zget (pixels out') i) = true) /\
      (invert settings = true ->
       is_line (zget (pixels out') i) = true ->
       is_line (zget (pixels out) i) = true).
Proof.
  intros Hwf Hm Hle.
  rewrite !processImage_solid by exact Hm.
  eexists. eexists. split; [reflexivity|]. split; [reflexivity|].
  intros x y Hx Hy. cbv zeta. cbn [solid_on pixels with_threshold lineThickness].
  rewrite !applyStencilEffect_map.
  set (data := zip_with source_over (pixels img) (cleared img)).
  assert (Hlen : Z.of_nat (length data) = width img * height img).
  { unfold data. rewrite length_drawn by (apply length_cleared, Hwf).
    apply wf_length, Hwf. }
  split; intros Hinv; apply thicken_line_subset;
    try assumption; try (rewrite length_fmap; exact Hlen);
    intros i; rewrite !is_line_fmap; destruct (zget data i) as [p|];
    try discriminate;
    rewrite !stencil_pixel_rule; unfold solid_rule_raw, gray_level;
    cbn [px_r with_threshold threshold contrast invert]; rewrite Hinv;
    rewrite !Z.eqb_eq, !binarize_black;
    (destruct (JS.gt (contrast_raw (bt601 p) (contrast settings)) hi) eqn:Hhi;
     [rewrite (gt_above_lower _ _ _ Hle Hhi)|]);
    cbn [xorb negb]; congruence.
Qed.

(** Raising the threshold of the line sketch can only remove edges, for
    any line thickness; with invert set it can only add black pixels. *)
Theorem raising_threshold_thins_the_sketch
    (img : Raster) (settings : StencilSettings) (hi : JS.num) (cv : Canvas) :
  wf_raster img ->
  mode settings = "line-sketch"%string ->
  JS_le (threshold settings) hi = true ->
  exists out out',
    fst (processImage source_over (Some img) settings cv) =
      Resolved (MkResult None None (Some out)) /\
    fst (processImage source_over (Some img) (with_threshold hi settings) cv) =
      Resolved (MkResult None None (Some out')) /\
    forall x y, 0 <= x < width img -> 0 <= y < height img ->
      let i := y * width img + x in
      (invert settings = false ->
       is_line (zget (pixels out') i) = true ->
       is_line (zget (pixels out) i) = true) /\
      (invert settings = true ->
       is_line (zget (pixels out) i) = true ->
       is_line (zget (pixels out') i) = true).
Proof.
  intros Hwf Hm Hle.
  rewrite !processImage_sketch by exact Hm.
  eexists. eexists. split; [reflexivity|]. split; [reflexivity|].
  intros x y Hx Hy. cbv zeta. cbn [sketch_on pixels with_threshold lineThickness].
  rewrite !threshold_loop_map.
  set (edge := applySobelEdgeDetection _ _ _).
  assert (Hlen : Z.of_nat (length edge) = width img * height img).
  { unfold edge.
    rewrite length_applySobelEdgeDetection, grayscale_loop_map, length_fmap.
    rewrite length_drawn by (apply length_cleared, Hwf).
    apply wf_length, Hwf. }
  split; intros Hinv; apply thicken_line_subset;
    try assumption; try (rewrite length_fmap; exact Hlen);
    intros i; rewrite !is_line_fmap; destruct (zget edge i) as [p|];
    try discriminate;
    rewrite !line_pixel_rule; unfold gray_level;
    cbn [px_r with_threshold threshold invert]; rewrite Hinv;
    rewrite !Z.eqb_eq, !binarize_black;
    (destruct (JS.gt (JS.of_int (px_r p)) hi) eqn:Hhi;
     [rewrite (gt_above_lower _ _ _ Hle Hhi)|]);
    cbn [xorb negb]; congruence.
Qed.

Lemma invert_gray_level (b : bool) (p : pixel) :
  invert_pixel (gray_level (binarize b false) p) = gray_level (binarize b true) p.
Proof. destruct b; reflexivity. Qed.

(** Without dilation the two binary transforms invert exactly on an
    opaque image: the solid stencil with invert set is the pointwise
    inversion of the one without it, alpha untouched, and so is the line
    sketch at every interior pixel. *)
Theorem binary_transforms_invert_exactly
    (img : Raster) (settings : StencilSettings) (cv : Canvas) :
  (forall s d, px_a s = 255 -> source_over s d = s) ->
  wf_raster img ->
  has_pixels img ->
  Forall (fun p => px_a p = 255) (pixels img) ->
  lineThickness settings <= 1 ->
  (mode settings = "solid-stencil"%string ->
   exists off on,
     fst (processImage source_over (Some img) (with_invert false settings) cv) =
       Resolved (MkResult (Some off) None None) /\
     fst (processImage source_over (Some img) (with_invert true settings) cv) =
       Resolved (MkResult (Some on) None None) /\
     Forall (fun p => px_a p = 255) (pixels off) /\
     pixels on = invert_pixel <$> pixels off) /\
  (mode settings = "line-sketch"%string ->
   exists off on,
     fst (processImage source_over (Some img) (with_invert false settings) cv) =
       Resolved (MkResult None None (Some off)) /\
     fst (processImage source_over (Some img) (with_invert true settings) cv) =
       Resolved (MkResult None None (Some on)) /\
     forall x y, interior (width img) (height img) x y = true ->
       exists q,
         zget (pixels off) (y * width img + x) = Some q /\ px_a q = 255 /\
         zget (pixels on) (y * width img + x) = Some (invert_pixel q)).
Proof.
  intros Hso Hwf _ Hop Ht.
  assert (Hdraw : zip_with source_over (pixels img) (cleared img) = pixels img).
  { apply draw_opaque; [exact Hso|exact Hop|].
    symmetry. apply length_cleared, Hwf. }
  split; intros Hm.
  - rewrite !processImage_solid by exact Hm.
    do 2 eexists. split; [reflexivity|]. split; [reflexivity|].
    cbn [solid_on pixels with_invert lineThickness]. unfold thicken.
    destruct (Z.gtb_spec (lineThickness settings) 1); [lia|].
    rewrite Hdraw, !applyStencilEffect_rule. split.
    + apply Forall_fmap. eapply Forall_impl; [exact Hop|]. intros p Hp. exact Hp.
    + rewrite <- list_fmap_compose.
      apply list_fmap_ext. intros _ p _. unfold compose, solid_rule_raw.
      cbn [threshold contrast invert]. symmetry. apply invert_gray_level.
  - rewrite !processImage_sketch by exact Hm.
    do 2 eexists. split; [reflexivity|]. split; [reflexivity|].
    intros x y Hi.
    cbn [sketch_on pixels with_invert lineThickness]. unfold thicken.
    destruct (Z.gtb_spec (lineThickness settings) 1); [lia|].
    rewrite Hdraw.
    rewrite !sketch_interior_pixel by (try assumption; apply wf_length, Hwf).
    eexists. split; [reflexivity|]. split; [reflexivity|].
    apply (f_equal Some). cbv zeta. unfold edge_rule_stored, invert_pixel.
    cbn [threshold invert px_r px_g px_b px_a].
    destruct (negb _); reflexivity.
Qed.

End Thresholds.

(** ** Beyond the claims: flat and gray images *)

Lemma sobel_sums_ext (data data' : list pixel) (w w' x x' y y' : Z) :
  (forall ky kx, -1 <= ky < 2 -> -1 <= kx < 2 ->
     chan px_r (zget data ((y + ky) * w + (x + kx))) =
     chan px_r (zget data' ((y' + ky) * w' + (x' + kx)))) ->
  sobel_sums data w x y = sobel_sums data' w' x' y'.
Proof.
  intros H. unfold sobel_sums.
  apply for_range_ext. intros ky acc Hky.
  apply for_range_ext. intros kx [gx gy] Hkx.
  rewrite (H ky kx Hky Hkx). reflexivity.
Qed.

(** On a 3x3 neighbourhood of one gray level the Sobel sums cancel. *)
Lemma flat_magnitude (g : Z) :
  byte g ->
  JS.toUint8Clamp (magnitude (sobel_sums (replicate 9 (Pixel g g g 0)) 3 1 1)) = 0.
Proof.
  intros Hg. apply Z.eqb_eq.
  apply (zrange_forallb
           (fun g => JS.toUint8Clamp
                       (magnitude (sobel_sums (replicate 9 (Pixel g g g 0)) 3 1 1))
                     =? 0)
           0 256);
    [vm_compute; reflexivity|unfold byte in Hg; lia].
Qed.

Lemma flat_magnitude_at (gray : list pixel) (g w h x y : Z) :
  byte g ->
  Z.of_nat (length gray) = w * h ->
  Forall (fun p => px_r p = g) gray ->
  interior w h x y = true ->
  JS.toUint8Clamp (magnitude (sobel_sums gray w x y)) = 0.
Proof.
  intros Hg Hlen Hflat Hi.
  rewrite <- (flat_magnitude g Hg). do 2 f_equal.
  unfold interior in Hi.
  rewrite !andb_true_iff, !Z.leb_le, !Z.ltb_lt in Hi.
  apply sobel_sums_ext. intros ky kx Hky Hkx.
  destruct (zget_in_range gray ((y + ky) * w + (x + kx))) as [p Hp].
  { pose proof (index_range w h (x + kx) (y + ky) ltac:(lia) ltac:(lia)). lia. }
  rewrite Hp. cbn [chan].
  assert (Hpg : px_r p = g).
  { unfold zget in Hp. destruct (_ <? 0); [discriminate|].
    rewrite Forall_lookup in Hflat. exact (Hflat _ _ Hp). }
  rewrite Hpg.
  unfold zget. destruct (Z.ltb_spec ((1 + ky) * 3 + (1 + kx)) 0); [lia|].
  rewrite lookup_replicate_2 by lia. reflexivity.
Qed.

Lemma flat_sobel_pixel (gray : list pixel) (g w h x y : Z) :
  byte g ->
  Z.of_nat (length gray) = w * h ->
  Forall (fun p => px_r p = g) gray ->
  interior w h x y = true ->
  px_r (sobel_pixel gray w x y) = 0.
Proof.
  intros Hg Hlen Hflat Hi. unfold sobel_pixel. cbn [px_r].
  apply (flat_magnitude_at gray g w h); assumption.
Qed.

Section FlatAndGray.

Variable source_over : pixel -> pixel -> pixel.

Hypothesis source_over_opaque :
  forall s d, px_a s = 255 -> source_over s d = s.


Lemma gray_passes_contrast_one (v : Z) :
  byte v ->
  JS.toUint8Clamp (contrast_clamped (bt601 (Pixel v v v 0)) (JS.of_int 1)) = v.
Proof.
  intros Hv. apply Z.eqb_eq.
  apply (zrange_forallb
           (fun v => JS.toUint8Clamp
                       (contrast_clamped (bt601 (Pixel v v v 0)) (JS.of_int 1))
                     =? v)
           0 256);
    [vm_compute; reflexivity|unfold byte in Hv; lia].
Qed.

(** At contrast 1, without invert, the black and white transform returns
    an opaque gray image as it is: the weights add up to 1 and the
    contrast formula is the identity, also after rounding. *)
Theorem gray_image_passes_at_contrast_one
    (img : Raster) (settings : StencilSettings) (cv : Canvas) :
  wf_raster img ->
  has_pixels img ->
  mode settings = "black-white"%string ->
  contrast settings = JS.of_int 1 ->
  invert settings = false ->
  Forall gray_in (pixels img) ->
  Forall (fun p => px_a p = 255) (pixels img) ->
  exists out sketch,
    fst (processImage source_over (Some img) settings cv) =
      Resolved (MkResult None (Some out) (Some sketch)) /\
    out = img.
Proof.
  intros Hwf _ Hm Hc Hinv Hgray Hop.
  rewrite processImage_bw by exact Hm.
  eexists. eexists. split; [reflexivity|].
  unfold bw_on.
  rewrite (draw_opaque source_over (pixels img) (cleared img))
    by (try assumption; unfold cleared; rewrite length_replicate; apply Hwf).
  rewrite blackWhite_loop_map.
  destruct img as [w h px]. cbn [width height pixels] in *. f_equal.
  rewrite <- (list_fmap_id px) at 2.
  apply Forall_fmap_ext. eapply Forall_impl; [exact Hgray|].
  intros [r g b a] (Hr & Hg & Hb). cbn [px_r px_g px_b] in *. subst g b.
  rewrite blackWhite_pixel_rule. unfold bw_rule, gray_level.
  rewrite Hc, Hinv. cbn [px_a].
  change (bt601 (Pixel r r r a)) with (bt601 (Pixel r r r 0)).
  rewrite gray_passes_contrast_one by exact Hr. reflexivity.
Qed.

End FlatAndGray.

(** ** Beyond the claims: alpha, and the downloads of the application *)

Section AlphaAndDownloads.

Variable source_over : pixel -> pixel -> pixel.


Lemma handleDownload_types (r : ProcessingResult) (name ty : string) :
  handleDownload (Some r) (Some name) ty =
  if String.eqb ty "solid" then
    (fun url => (url, String.append (before_dot name) "_solid_stencil.png"))
      <$> solidStencil r
  else if String.eqb ty "blackWhite" then
    (fun url => (url, String.append (before_dot name) "_black_white.png"))
      <$> blackWhite r
  else if String.eqb ty "lineSketch" then
    (fun url => (url, String.append (before_dot name) "_line_sketch.png"))
      <$> lineSketch r
  else None.
Proof.
  unfold handleDownload.
  destruct (String.eqb ty "solid"); [destruct (solidStencil r); reflexivity|].
  destruct (String.eqb ty "blackWhite"); [destruct (blackWhite r); reflexivity|].
  destruct (String.eqb ty "lineSketch"); [destruct (lineSketch r); reflexivity|].
  reflexivity.
Qed.

(** After a run on a decoded image, a download request is served exactly
    for the rasters the mode produces: 'solid' in solid-stencil mode,
    'blackWhite' and 'lineSketch' in black-white mode, 'lineSketch' in
    line-sketch mode, and none for an unrecognised mode. *)
Theorem downloads_follow_the_mode
    (img : Raster) (settings : StencilSettings) (cv : Canvas)
    (previous : option ProcessingResult) (name ty : string) :
  let shown :=
    after_processing previous
      (fst (processImage source_over (Some img) settings cv)) in
  let served := is_Some (handleDownload shown (Some name) ty) in
  (mode settings = "solid-stencil"%string ->
   (served <-> ty = "solid"%string)) /\
  (mode settings = "black-white"%string ->
   (served <-> ty = "blackWhite"%string \/ ty = "lineSketch"%string)) /\
  (mode settings = "line-sketch"%string ->
   (served <-> ty = "lineSketch"%string)) /\
  (mode settings <> "solid-stencil"%string ->
   mode settings <> "black-white"%string ->
   mode settings <> "line-sketch"%string ->
   ~ served).
Proof.
  cbv zeta.
  assert (Hnone : forall A, ~ is_Some (@None A)) by (intros A [? [=]]).
  assert (Hsome : forall A B (f : A -> B) a, is_Some (f <$> Some a))
    by (intros; eexists; reflexivity).
  split; [|split; [|split]].
  - intros Hm. rewrite processImage_solid by exact Hm.
    cbn [fst after_processing]. rewrite handleDownload_types.
    cbn [solidStencil blackWhite lineSketch].
    destruct (String.eqb_spec ty "solid") as [->|Hty];
      [split; [reflexivity|intros _; apply Hsome]|].
    destruct (String.eqb ty "blackWhite"), (String.eqb ty "lineSketch");
      (split; [intros H; exfalso; exact (Hnone _ H)|intros ->; contradiction]).
  - intros Hm. rewrite processImage_bw by exact Hm. cbv zeta.
    cbn [fst after_processing]. rewrite handleDownload_types.
    cbn [solidStencil blackWhite lineSketch].
    destruct (String.eqb_spec ty "solid") as [->|Hty].
    { split; [intros H; exfalso; exact (Hnone _ H)|intros [[=]|[=]]]. }
    destruct (String.eqb_spec ty "blackWhite") as [->|Hty'].
    { split; [intros _; left; reflexivity|intros _; apply Hsome]. }
    destruct (String.eqb_spec ty "lineSketch") as [->|Hty''].
    { split; [intros _; right; reflexivity|intros _; apply Hsome]. }
    split; [intros H; exfalso; exact (Hnone _ H)|intros [->| ->]; contradiction].
  - intros Hm. rewrite processImage_sketch by exact Hm.
    cbn [fst after_processing]. rewrite handleDownload_types.
    cbn [solidStencil blackWhite lineSketch].
    destruct (String.eqb_spec ty "solid") as [->|Hty].
    { split; [intros H; exfalso; exact (Hnone _ H)|intros [=]]. }
    destruct (String.eqb_spec ty "blackWhite") as [->|Hty'].
    { split; [intros H; exfalso; exact (Hnone _ H)|intros [=]]. }
    destruct (String.eqb_spec ty "lineSketch") as [->|Hty''].
    { split; [reflexivity|intros _; apply Hsome]. }
    split; [intros H; exfalso; exact (Hnone _ H)|intros ->; contradiction].
  - intros H1 H2 H3. rewrite processImage_other by assumption.
    cbn [fst after_processing]. rewrite handleDownload_types.
    cbn [solidStencil blackWhite lineSketch empty_result].
    destruct (String.eqb ty "solid"), (String.eqb ty "blackWhite"),
      (String.eqb ty "lineSketch"); apply Hnone.
Qed.

End AlphaAndDownloads.

Lemma before_dot_stem (stem rest : string) :
  has_dot stem = false ->
  before_dot (String.append stem (String "."%char rest)) = stem.
Proof.
  induction stem as [|c stem IH]; intros H; cbn in *; [reflexivity|].
  apply orb_false_iff in H. destruct H as [Hc Hs].
  rewrite Hc, IH by exact Hs. reflexivity.
Qed.

Lemma before_dot_no_dot (name : string) :
  has_dot name = false -> before_dot name = name.
Proof.
  induction name as [|c name IH]; intros H; cbn in *; [reflexivity|].
  apply orb_false_iff in H. destruct H as [Hc Hs].
  rewrite Hc, IH by exact Hs. reflexivity.
Qed.

(** The name of a downloaded file is the part of the image's name before
    its first dot, one of the three suffixes, and ".png": everything from
    the first dot on is dropped, and a name without a dot is kept whole. *)
Theorem download_name_stops_at_first_dot
    (r : ProcessingResult) (name ty : string) (url : Raster) (file : string) :
  handleDownload (Some r) (Some name) ty = Some (url, file) ->
  exists suffix,
    suffix ∈ download_suffixes /\
    file = String.append (before_dot name) (String.append suffix ".png") /\
    has_dot (before_dot name) = false /\
    (has_dot name = false -> before_dot name = name) /\
    (forall stem rest,
       has_dot stem = false ->
       name = String.append stem (String "."%char rest) ->
       file = String.append stem (String.append suffix ".png")).
Proof.
  intros H.
  assert (Hfile : exists suffix,
            suffix ∈ download_suffixes /\
            file = String.append (before_dot name) (String.append suffix ".png")).
  { unfold handleDownload in H.
    destruct (String.eqb ty "solid");
      [destruct (solidStencil r); [|discriminate]; injection H as _ <-;
       exists "_solid_stencil"%string; split; [|reflexivity];
       unfold download_suffixes; repeat constructor|].
    destruct (String.eqb ty "blackWhite");
      [destruct (blackWhite r); [|discriminate]; injection H as _ <-;
       exists "_black_white"%string; split; [|reflexivity];
       unfold download_suffixes; repeat constructor|].
    destruct (String.eqb ty "lineSketch");
      [destruct (lineSketch r); [|discriminate]; injection H as _ <-;
       exists "_line_sketch"%string; split; [|reflexivity];
       unfold download_suffixes; repeat constructor|].
    discriminate. }
  destruct Hfile as (suffix & Hin & ->).
  exists suffix. split; [exact Hin|]. split; [reflexivity|].
  split; [|split].
  - clear. induction name as [|c name IH]; cbn; [reflexivity|].
    destruct (Ascii.eqb c ".") eqn:Hc; cbn; [reflexivity|].
    rewrite Hc, IH. reflexivity.
  - apply before_dot_no_dot.
  - intros stem rest Hstem ->. rewrite before_dot_stem by exact Hstem.
    reflexivity.
Qed.

(** ** The further properties at sample inputs *)

Lemma outputs_have_the_shape_of_the_image_witness :
  width (solid_on ref_source_over corner_3x3 (default_settings "solid-stencil")
           (cleared corner_3x3)) = width corner_3x3 /\
  height (solid_on ref_source_over corner_3x3 (default_settings "solid-stencil")
            (cleared corner_3x3)) = height corner_3x3 /\
  wf_raster (solid_on ref_source_over corner_3x3 (default_settings "solid-stencil")
               (cleared corner_3x3)) /\
  length (pixels (solid_on ref_source_over corner_3x3
                    (default_settings "solid-stencil") (cleared corner_3x3))) =
  length (pixels corner_3x3).
Proof.
  apply (outputs_have_the_shape_of_the_image ref_source_over corner_3x3
           (default_settings "solid-stencil") initial_canvas
           (MkResult
              (Some (solid_on ref_source_over corner_3x3
                       (default_settings "solid-stencil") (cleared corner_3x3)))
              None None)).
  - unfold wf_raster. simpl. repeat split; lia.
  - vm_compute. reflexivity.
  - left. reflexivity.
Defined.

Lemma line_sketch_ignores_contrast_witness :
  MkResult None None
    (Some (sketch_on ref_source_over corner_3x3
             (with_contrast (JS.of_int 3) (default_settings "line-sketch"))
             (cleared corner_3x3))) =
  MkResult None None
    (Some (sketch_on ref_source_over corner_3x3 (default_settings "line-sketch")
             (cleared corner_3x3))).
Proof.
  apply (line_sketch_ignores_contrast ref_source_over corner_3x3
           (default_settings "line-sketch") (JS.of_int 3) initial_canvas).
  - vm_compute. reflexivity.
  - vm_compute. reflexivity.
  - reflexivity.
Defined.

Lemma dilation_without_lines_is_identity_witness :
  snd (applyLineThickness 3 white_1x1) = white_1x1.
Proof.
  apply (dilation_without_lines_is_identity 3 white_1x1).
  repeat constructor. simpl. lia.
Defined.

Lemma dilation_grows_with_thickness_witness :
  is_line (zget (pixels (snd (applyLineThickness 3 corner_3x3)))
             (2 * width corner_3x3 + 2)) = true.
Proof.
  apply (dilation_grows_with_thickness 2 3 corner_3x3 2 2).
  - lia.
  - lia.
  - unfold wf_raster. simpl. repeat split; lia.
  - simpl. lia.
  - simpl. lia.
  - vm_compute. reflexivity.
Defined.

Lemma dilation_composes_witness :
  snd (applyLineThickness 2 (snd (applyLineThickness 2 corner_3x3))) =
  snd (applyLineThickness (2 + 2 - 1) corner_3x3).
Proof.
  apply (dilation_composes 2 2 corner_3x3).
  - lia.
  - lia.
  - unfold wf_raster. simpl. repeat split; lia.
Defined.

Lemma raising_threshold_darkens_the_stencil_witness :
  exists out out',
    fst (processImage ref_source_over (Some corner_3x3)
           (default_settings "solid-stencil") initial_canvas) =
      Resolved (MkResult (Some out) None None) /\
    fst (processImage ref_source_over (Some corner_3x3)
           (with_threshold (JS.of_int 200) (default_settings "solid-stencil"))
           initial_canvas) =
      Resolved (MkResult (Some out') None None) /\
    forall x y, 0 <= x < width corner_3x3 -> 0 <= y < height corner_3x3 ->
      let i := y * width corner_3x3 + x in
      (invert (default_settings "solid-stencil") = false ->
       is_line (zget (pixels out) i) = true ->
       is_line (zget (pixels out') i) = true) /\
      (invert (default_settings "solid-stencil") = true ->
       is_line (zget (pixels out') i) = true ->
       is_line (zget (pixels out) i) = true).
Proof.
  apply (raising_threshold_darkens_the_stencil ref_source_over corner_3x3
           (default_settings "solid-stencil") (JS.of_int 200) initial_canvas).
  - unfold wf_raster. simpl. repeat split; lia.
  - reflexivity.
  - vm_compute. reflexivity.
Defined.

Lemma raising_threshold_thins_the_sketch_witness :
  exists out out',
    fst (processImage ref_source_over (Some corner_3x3)
           (default_settings "line-sketch") initial_canvas) =
      Resolved (MkResult None None (Some out)) /\
    fst (processImage ref_source_over (Some corner_3x3)
           (with_threshold (JS.of_int 200) (default_settings "line-sketch"))
           initial_canvas) =
      Resolved (MkResult None None (Some out')) /\
    forall x y, 0 <= x < width corner_3x3 -> 0 <= y < height corner_3x3 ->
      let i := y * width corner_3x3 + x in
      (invert (default_settings "line-sketch") = false ->
       is_line (zget (pixels out') i) = true ->
       is_line (zget (pixels out) i) = true) /\
      (invert (default_settings "line-sketch") = true ->
       is_line (zget (pixels out) i) = true ->
       is_line (zget (pixels out') i) = true).
Proof.
  apply (raising_threshold_thins_the_sketch ref_source_over corner_3x3
           (default_settings "line-sketch") (JS.of_int 200) initial_canvas).
  - unfold wf_raster. simpl. repeat split; lia.
  - reflexivity.
  - vm_compute. reflexivity.
Defined.

Lemma binary_transforms_invert_exactly_witness :
  exists off on,
    fst (processImage premultiplied_over (Some corner_3x3)
           (with_invert false bright_settings) initial_canvas) =
      Resolved (MkResult (Some off) None None) /\
    fst (processImage premultiplied_over (Some corner_3x3)
           (with_invert true bright_settings) initial_canvas) =
      Resolved (MkResult (Some on) None None) /\
    Forall (fun p => px_a p = 255) (pixels off) /\
    pixels on = invert_pixel <$> pixels off.
Proof.
  apply (binary_transforms_invert_exactly premultiplied_over corner_3x3
           bright_settings initial_canvas).
  - exact premultiplied_over_opaque.
  - unfold wf_raster. simpl. repeat split; lia.
  - unfold has_pixels. simpl. lia.
  - repeat constructor.
  - simpl. lia.
  - reflexivity.
Defined.


Lemma gray_image_passes_at_contrast_one_witness :
  exists out sketch,
    fst (processImage premultiplied_over (Some gray_3x3) plain_tone_settings
           initial_canvas) =
      Resolved (MkResult None (Some out) (Some sketch)) /\
    out = gray_3x3.
Proof.
  apply (gray_image_passes_at_contrast_one premultiplied_over
           premultiplied_over_opaque gray_3x3 plain_tone_settings initial_canvas).
  - unfold wf_raster. simpl. repeat split; lia.
  - unfold has_pixels. simpl. lia.
  - reflexivity.
  - reflexivity.
  - reflexivity.
  - repeat constructor; simpl; lia.
  - repeat constructor.
Defined.


Lemma download_name_stops_at_first_dot_witness :
  exists suffix,
    suffix ∈ download_suffixes /\
    "my_solid_stencil.png"%string =
      String.append (before_dot "my.design.png")
        (String.append suffix ".png") /\
    has_dot (before_dot "my.design.png") = false /\
    (has_dot "my.design.png" = false ->
     before_dot "my.design.png" = "my.design.png"%string) /\
    (forall stem rest,
       has_dot stem = false ->
       "my.design.png"%string = String.append stem (String "."%char rest) ->
       "my_solid_stencil.png"%string =
         String.append stem (String.append suffix ".png")).
Proof.
  apply (download_name_stops_at_first_dot
           (MkResult (Some white_1x1) None None) "my.design.png" "solid"
           white_1x1 "my_solid_stencil.png").
  reflexivity.
Defined.
